(** * github-jira-integration: pull requests reconciled with Jira issues

    A shallow embedding of the two versions of the program ([src/main.go],
    the earlier one, and [src/unnamed/part_000], the later one) and the
    properties its specification states about them.

    Go strings are byte sequences: they are modelled as [string], one
    [ascii] per byte.  Pointer fields read through the generated getters
    ([GetTitle], [GetState], ...) are modelled by their values, with the
    zero value standing for an absent field, as the getters return it. *)

From Stdlib Require Import ZArith Ascii String DecimalString.
From Stdlib Require DecimalPos DecimalZ.
From stdpp Require Import base option list gmap strings.

Local Open Scope stdpp_scope.

(** ** The [strings] package *)

Module strings.

(** [strings.HasPrefix(s, prefix)]. *)
Fixpoint HasPrefix (s prefix : string) {struct prefix} : bool :=
  match prefix with
  | "" => true
  | String c prefix' =>
      match s with
      | "" => false
      | String d s' => if Ascii.eqb d c then HasPrefix s' prefix' else false
      end
  end.

(** [s[n:]], for [n <= len(s)]; every use in the program is guarded by
    a [HasPrefix] test that gives this bound. *)
Fixpoint slice_from (n : nat) (s : string) : string :=
  match n with
  | O => s
  | S n' => match s with "" => "" | String _ s' => slice_from n' s' end
  end.

(** [strings.Contains(s, substr)]. *)
Fixpoint Contains (s substr : string) : bool :=
  if HasPrefix s substr then true
  else match s with
       | "" => false
       | String _ s' => Contains s' substr
       end.

End strings.

(** ** The [regexp] package, for the two patterns the program compiles

    Both patterns are a literal (or an alternation of literals, each
    passed through [regexp.QuoteMeta]), the class [[0-9]+] and the literal
    [": "].  Go's matcher returns the leftmost match and, among the
    matches starting there, the one a backtracking matcher finds first:
    alternatives are tried in order, and [[0-9]+] is greedy.  Since the
    byte after the digits must be [':'], giving a digit back can never
    help, so the greedy run is the only candidate. *)

Module regexp.

Definition is_digit (c : ascii) : bool :=
  let n := N_of_ascii c in ((48 <=? n) && (n <=? 57))%N.

(** A literal at the head of the input; the result is what follows. *)
Definition lit (p s : string) : option string :=
  if strings.HasPrefix s p then Some (strings.slice_from (String.length p) s)
  else None.

(** The longest run of digits at the head of the input, and what
    follows it. *)
Fixpoint digits (s : string) : string * string :=
  match s with
  | "" => ("", "")
  | String c s' =>
      if is_digit c
      then let '(d, r) := digits s' in (String c d, r)
      else ("", s)
  end.

(** [[0-9]+] followed by the literal [": "]: the digits matched. *)
Definition number_colon (s : string) : option string :=
  let '(d, r) := digits s in
  match d with
  | "" => None
  | _ => match lit ": " r with Some _ => Some d | None => None end
  end.

(** [-[0-9]+] followed by [": "], after one alternative has matched. *)
Definition key_tail (s : string) : option string :=
  match lit "-" s with
  | Some r => number_colon r
  | None => None
  end.

(** [((?:p1|...|pn)-[0-9]+): ] at the head of the input: the text of
    group 1. *)
Fixpoint match_key_here (alts : list string) (s : string) : option string :=
  match alts with
  | [] => None
  | p :: alts' =>
      match lit p s with
      | Some r =>
          match key_tail r with
          | Some d => Some (p +:+ "-" +:+ d)
          | None => match_key_here alts' s
          end
      | None => match_key_here alts' s
      end
  end.

(** The alternatives of [(?:...)] as the loop of [main] assembles them
    from the project list; with no project the group is empty and
    matches the empty string. *)
Definition key_alternatives (projects : list string) : list string :=
  match projects with
  | [] => [""]
  | _ => projects
  end.

(** [keyRegexp.FindStringSubmatch(s)], reduced to what the program
    reads of it: [None] for a nil result, [Some match[1]] otherwise. *)
Fixpoint find_key (alts : list string) (s : string) : option string :=
  match match_key_here alts s with
  | Some k => Some k
  | None =>
      match s with
      | "" => None
      | String _ s' => find_key alts s'
      end
  end.

(** [Bug [0-9]+: ] at the head of the input. *)
Definition match_bug_here (s : string) : bool :=
  match lit "Bug " s with
  | Some r => match number_colon r with Some _ => true | None => false end
  | None => false
  end.

(** [bugRegexp.MatchString(s)]. *)
Fixpoint match_bug (s : string) : bool :=
  if match_bug_here s then true
  else match s with
       | "" => false
       | String _ s' => match_bug s'
       end.

End regexp.

(** ** Data of the two remote systems *)

Module github.

(** [label.GetName()]. *)
Record Label := { Name : string }.

(** What the program reads of a [*github.PullRequest]:
    [GetTitle], [GetState], [GetMerged], [GetNumber],
    [User.GetLogin], [Base.Repo.GetFullName] and [Labels]. *)
Record PullRequest := {
  Title : string;
  State : string;
  Merged : bool;
  Number : Z;
  User_Login : string;
  Base_Repo_FullName : string;
  Labels : list Label
}.

End github.

Module jira.

Record RemoteLinkIcon := { Url16x16 : string; IconTitle : string }.

Record RemoteLinkObject := {
  URL : string;
  Title : string;
  Icon : RemoteLinkIcon
}.

Record RemoteLink := { Object : RemoteLinkObject }.

(** What the program reads of a [*jira.Issue]:
    [issue.Fields.Status.Name]. *)
Record Issue := { Key : string; Fields_Status_Name : string }.

End jira.

(** ** Formatting *)

(** The verb [%d] of [fmt.Sprintf] on an [int]. *)
Definition fmt_d (n : Z) : string := NilZero.string_of_int (Z.to_int n).

(** ** The world the program runs in

    The Jira server keeps, per issue key, the status name and the remote
    links of the issue; the GitHub server keeps, per repository, the first
    page of its pull requests.  A remote call fails when the server does
    not know the key or the repository, or when the transport fails: the
    list [faults] decides the latter, one entry per remote call in the
    order the calls are made ([true]: this call fails; past the end of the
    list no call fails).  [trace] records, in order, what the run did: the
    log statements it executed and the remote calls it made. *)

Inductive error := ErrTransport | ErrNotFound.

Inductive Result (A : Type) :=
| Ok (a : A)
| Err (e : error).
Arguments Ok {A} a.
Arguments Err {A} e.

Inductive Request :=
| PullRequests_List (owner name : string)
| Issue_Get (issueKey : string)
| Issue_GetRemoteLinks (issueKey : string)
| POST (path : string) (body : jira.RemoteLink).

(** A log statement is recorded with its format string and its
    arguments, a number as [%d] prints it.  [Infof v] is
    [klog.V(v).Infof]: whether the line is printed depends on the
    verbosity flag; the statement is recorded either way. *)
Inductive Event :=
| Infof (v : nat) (format : string) (args : list string)
| Warningf (format : string) (args : list string)
| Fatal (err : error)
| Remote (req : Request) (err : option error).

Record IssueRecord := {
  status : string;
  remotelinks : list jira.RemoteLink
}.

Record World := {
  pulls : gmap (string * string) (list github.PullRequest);
  issues : gmap string IssueRecord;
  faults : list bool;
  trace : list Event
}.

Definition record (e : Event) (w : World) : World :=
  {| pulls := pulls w; issues := issues w; faults := faults w;
     trace := trace w ++ [e] |}.

Definition set_issues (i : gmap string IssueRecord) (w : World) : World :=
  {| pulls := pulls w; issues := i; faults := faults w; trace := trace w |}.

Definition take_fault (w : World) : bool * World :=
  match faults w with
  | [] => (false, w)
  | b :: fs =>
      (b, {| pulls := pulls w; issues := issues w; faults := fs;
             trace := trace w |})
  end.

(** ** The monad of the program: state, and exit through [klog.Fatal] *)

Inductive Outcome (A : Type) :=
| Returned (a : A)
| Exited.
Arguments Returned {A} a.
Arguments Exited {A}.

Definition M (A : Type) : Type := World → Outcome A * World.

Definition ret {A} (a : A) : M A := λ w, (Returned a, w).

Definition bind {A B} (m : M A) (f : A → M B) : M B := λ w,
  match m w with
  | (Returned a, w') => f a w'
  | (Exited, w') => (Exited, w')
  end.

Declare Scope M_scope.
Delimit Scope M_scope with M.
Notation "x ← y ; z" := (bind y (λ x, z))
  (at level 20, y at level 100, z at level 200, only parsing) : M_scope.
Notation "y ;; z" := (bind y (λ _, z))
  (at level 100, z at level 200, only parsing, right associativity) : M_scope.
Local Open Scope M_scope.

Definition emit (e : Event) : M unit := λ w, (Returned tt, record e w).

Definition klog_V_Infof (v : nat) (format : string) (args : list string)
  : M unit := emit (Infof v format args).

Definition klog_Warningf (format : string) (args : list string) : M unit :=
  emit (Warningf format args).

(** [klog.Fatal(err)]: logs the error and exits the process. *)
Definition klog_Fatal {A} (err : error) : M A :=
  λ w, (Exited, record (Fatal err) w).

(** A remote call: the transport may fail; otherwise the server answers. *)
Definition remote_call {A} (req : Request)
    (serve : World → Result (A * World)) : M (Result A) := λ w,
  let '(f, w1) := take_fault w in
  if f then (Returned (Err ErrTransport), record (Remote req (Some ErrTransport)) w1)
  else match serve w1 with
       | Ok (a, w2) => (Returned (Ok a), record (Remote req None) w2)
       | Err e => (Returned (Err e), record (Remote req (Some e)) w1)
       end.

(** [githubClient.PullRequests.List(ctx, owner, name, opts)]. *)
Definition githubClient_PullRequests_List (owner name : string)
  : M (Result (list github.PullRequest)) :=
  remote_call (PullRequests_List owner name) (λ w,
    match pulls w !! (owner, name) with
    | Some prs => Ok (prs, w)
    | None => Err ErrNotFound
    end).

(** [jiraClient.Issue.Get(issueKey, nil)]. *)
Definition jiraClient_Issue_Get (issueKey : string) : M (Result jira.Issue) :=
  remote_call (Issue_Get issueKey) (λ w,
    match issues w !! issueKey with
    | Some r =>
        Ok ({| jira.Key := issueKey; jira.Fields_Status_Name := status r |}, w)
    | None => Err ErrNotFound
    end).

(** [jiraClient.Issue.GetRemoteLinks(issueKey)]. *)
Definition jiraClient_Issue_GetRemoteLinks (issueKey : string)
  : M (Result (list jira.RemoteLink)) :=
  remote_call (Issue_GetRemoteLinks issueKey) (λ w,
    match issues w !! issueKey with
    | Some r => Ok (remotelinks r, w)
    | None => Err ErrNotFound
    end).

(** [jiraClient.NewRequest("POST", "rest/api/2/issue/"+issueKey+"/remotelink", link)]
    followed by [jiraClient.Do(req, nil)]: on success the server adds the
    link to the links of the issue. *)
Definition jiraClient_POST_remotelink (issueKey : string)
    (link : jira.RemoteLink) : M (Result unit) :=
  remote_call (POST ("rest/api/2/issue/" +:+ issueKey +:+ "/remotelink") link)
    (λ w,
      match issues w !! issueKey with
      | Some r =>
          Ok (tt, set_issues
                    (<[issueKey :=
                         {| status := status r;
                            remotelinks := remotelinks r ++ [link] |}]>
                       (issues w)) w)
      | None => Err ErrNotFound
      end).

(** A [for ... range] loop whose body may only fall through, [continue]
    or exit the process. *)
Fixpoint for_range {A} (l : list A) (body : A → M unit) : M unit :=
  match l with
  | [] => ret tt
  | x :: l' => body x ;; for_range l' body
  end.

(** A [for ... range] loop whose body may [return] from the enclosing
    function: the body answers [true] when it has returned, and the loop
    answers whether some iteration did. *)
Fixpoint for_range_return {A} (l : list A) (body : A → M bool) : M bool :=
  match l with
  | [] => ret false
  | x :: l' =>
      returned ← body x;
      if returned then ret true else for_range_return l' body
  end.

(** Reading a Go [map[string]bool]: an absent key reads as [false]. *)
Definition map_index (m : gmap string bool) (k : string) : bool :=
  default false (m !! k).

(** ** The earlier version, [src/main.go] *)

Module main_go.

Definition repositories : list (string * string) :=
  [ ("openshift", "api");
    ("openshift", "cluster-image-registry-operator");
    ("openshift", "docker-distribution");
    ("openshift", "image-registry");
    ("openshift", "openshift-apiserver");
    ("openshift", "origin") ].

Definition jiraProjects : list string := [ "IR" ].

Definition pullRequestLink (pr : github.PullRequest) : string :=
  "https://github.com/" +:+ github.Base_Repo_FullName pr +:+ "/pull/"
    +:+ fmt_d (github.Number pr).

Definition pullRequestLinkTitle (pr : github.PullRequest) : string :=
  github.Base_Repo_FullName pr +:+ "#" +:+ fmt_d (github.Number pr).

Definition linkPullRequestToIssue (pr : github.PullRequest)
    (issueKey : string) : M unit :=
  klog_V_Infof 3 "Checking if %s is linked to %s..."
    [pullRequestLinkTitle pr; issueKey];;
  let title := github.Title pr in
  let title :=
    if strings.HasPrefix title (issueKey +:+ ": ")
    then strings.slice_from (String.length (issueKey +:+ ": ")) title
    else title in
  r ← jiraClient_Issue_GetRemoteLinks issueKey;
  match r with
  | Err err => klog_Fatal err
  | Ok links =>
      let remoteURL := pullRequestLink pr in
      let remoteTitle := pullRequestLinkTitle pr +:+ ": " +:+ title in
      returned ← for_range_return links (λ link,
        if String.eqb (jira.URL (jira.Object link)) remoteURL
        then klog_V_Infof 3 "%s is already linked to %s"
               [pullRequestLinkTitle pr; issueKey];;
             ret true
        else ret false);
      if returned then ret tt
      else
        klog_V_Infof 1 "Linking the pull request %s to the issue %s..."
          [pullRequestLinkTitle pr; issueKey];;
        let link :=
          {| jira.Object :=
               {| jira.URL := remoteURL;
                  jira.Title := remoteTitle;
                  jira.Icon :=
                    {| jira.Url16x16 := "https://github.com/favicon.ico";
                       jira.IconTitle := "GitHub" |} |} |} in
        r ← jiraClient_POST_remotelink issueKey link;
        match r with
        | Err err => klog_Fatal err
        | Ok _ => ret tt
        end
  end.

Definition keyRegexp_FindStringSubmatch (title : string) : option string :=
  regexp.find_key (regexp.key_alternatives jiraProjects) title.

(** The body of the loop over the pull requests of one repository.  The
    title is read as [*pr.Title]; GitHub sends one with every pull
    request. *)
Definition main_pr (pr : github.PullRequest) : M unit :=
  let title := github.Title pr in
  match keyRegexp_FindStringSubmatch title with
  | None => ret tt
  | Some issueKey => linkPullRequestToIssue pr issueKey
  end.

(** The body of the loop over the repositories. *)
Definition main_repo (repo : string * string) : M unit :=
  klog_V_Infof 2 "Analyzing github repository %s/%s..." [repo.1; repo.2];;
  r ← githubClient_PullRequests_List repo.1 repo.2;
  match r with
  | Err err => klog_Fatal err
  | Ok prs => for_range prs main_pr
  end.

(** [main], once the flags and the environment have been read and the
    clients built. *)
Definition main : M unit := for_range repositories main_repo.

End main_go.

(** ** The later version, [src/unnamed/part_000] *)

Module part_000.

Definition repositories : list (string * string) :=
  [ ("openshift", "api");
    ("openshift", "cluster-image-registry-operator");
    ("openshift", "cluster-monitoring-operator");
    ("openshift", "docker-distribution");
    ("openshift", "image-registry");
    ("openshift", "oc");
    ("openshift", "openshift-apiserver");
    ("openshift", "origin");
    ("openshift", "release") ].

Definition jiraProjects : list string := [ "IR" ].

Definition team : gmap string bool :=
  <["dmage" := true]> (<["ricardomaraschini" := true]> ∅).

Definition teamRepos : gmap string bool :=
  <["openshift/cluster-image-registry-operator" := true]>
    (<["openshift/image-registry" := true]> ∅).

Definition pullRequestLink (pr : github.PullRequest) : string :=
  "https://github.com/" +:+ github.Base_Repo_FullName pr +:+ "/pull/"
    +:+ fmt_d (github.Number pr).

Definition pullRequestLinkTitle (pr : github.PullRequest) : string :=
  github.Base_Repo_FullName pr +:+ "#" +:+ fmt_d (github.Number pr).

Definition pullRequestLabels (pr : github.PullRequest) : list string :=
  foldl (λ labels label, labels ++ [github.Name label]) [] (github.Labels pr).

Fixpoint contains (labels : list string) (name : string) : bool :=
  match labels with
  | [] => false
  | label :: labels' =>
      if String.eqb label name then true else contains labels' name
  end.

Definition linkPullRequestToIssue (pr : github.PullRequest)
    (issueKey : string) : M unit :=
  klog_V_Infof 3 "Checking if %s is linked to %s..."
    [pullRequestLinkTitle pr; issueKey];;
  let title := github.Title pr in
  let title :=
    if strings.HasPrefix title (issueKey +:+ ": ")
    then strings.slice_from (String.length (issueKey +:+ ": ")) title
    else title in
  r ← jiraClient_Issue_Get issueKey;
  match r with
  | Err err => klog_Fatal err
  | Ok issue =>
      let status := jira.Fields_Status_Name issue in
      (if String.eqb (github.State pr) "open" then
         let labels := pullRequestLabels pr in
         (if negb (contains labels "do-not-merge/hold") then
            klog_V_Infof 1 "The pull request %s is open and it's not on hold. Please make sure that it has got all approvals or put it on hold."
              [pullRequestLink pr]
          else ret tt);;
         if strings.Contains title "WIP" then
           if negb (String.eqb status "In Progress") then
             klog_V_Infof 1 "%s: got %s, want In Progress" [issueKey; status]
           else ret tt
         else
           if negb (String.eqb status "Code Review") then
             klog_V_Infof 1 "%s: got %s, want Code Review" [issueKey; status]
           else ret tt
       else if String.eqb (github.State pr) "closed" then
         if github.Merged pr && negb (String.eqb status "On QA")
            && negb (String.eqb status "Done") then
           klog_V_Infof 1 "%s: got %s, want On QA or Done" [issueKey; status]
         else ret tt
       else
         klog_Warningf "%s: unexpected state %q"
           [pullRequestLink pr; github.State pr]);;
      r ← jiraClient_Issue_GetRemoteLinks issueKey;
      match r with
      | Err err => klog_Fatal err
      | Ok links =>
          let remoteURL := pullRequestLink pr in
          let remoteTitle := pullRequestLinkTitle pr +:+ ": " +:+ title in
          returned ← for_range_return links (λ link,
            if String.eqb (jira.URL (jira.Object link)) remoteURL
            then klog_V_Infof 3 "%s is already linked to %s"
                   [pullRequestLinkTitle pr; issueKey];;
                 ret true
            else ret false);
          if returned then ret tt
          else
            klog_V_Infof 1 "Linking the pull request %s to the issue %s..."
              [pullRequestLinkTitle pr; issueKey];;
            let link :=
              {| jira.Object :=
                   {| jira.URL := remoteURL;
                      jira.Title := remoteTitle;
                      jira.Icon :=
                        {| jira.Url16x16 := "https://github.com/favicon.ico";
                           jira.IconTitle := "GitHub" |} |} |} in
            r ← jiraClient_POST_remotelink issueKey link;
            match r with
            | Err err => klog_Fatal err
            | Ok _ => ret tt
            end
      end
  end.

Definition keyRegexp_FindStringSubmatch (title : string) : option string :=
  regexp.find_key (regexp.key_alternatives jiraProjects) title.

Definition bugRegexp_MatchString (title : string) : bool :=
  regexp.match_bug title.

(** The body of the loop over the pull requests of one repository. *)
Definition main_pr (pr : github.PullRequest) : M unit :=
  let match_ := keyRegexp_FindStringSubmatch (github.Title pr) in
  (if String.eqb (github.State pr) "open"
      && (map_index team (github.User_Login pr)
          || map_index teamRepos (github.Base_Repo_FullName pr)) then
     if negb (strings.Contains (github.Title pr) "WIP") then
       match match_ with
       | None =>
           if negb (bugRegexp_MatchString (github.Title pr)) then
             klog_V_Infof 1 "The pull request %s is not assigned to a bug nor a story: %s"
               [pullRequestLink pr; github.Title pr]
           else
             klog_V_Infof 1 "Awaiting review (bugfix): %s: %s"
               [pullRequestLink pr; github.Title pr]
       | Some _ =>
           klog_V_Infof 1 "Awaiting review (feature): %s: %s"
             [pullRequestLink pr; github.Title pr]
       end
     else ret tt
   else ret tt);;
  match match_ with
  | None => ret tt
  | Some issueKey => linkPullRequestToIssue pr issueKey
  end.

(** The body of the loop over the repositories. *)
Definition main_repo (repo : string * string) : M unit :=
  klog_V_Infof 2 "Analyzing github repository %s/%s..." [repo.1; repo.2];;
  r ← githubClient_PullRequests_List repo.1 repo.2;
  match r with
  | Err err => klog_Fatal err
  | Ok prs => for_range prs main_pr
  end.

(** [main], once the flags and the environment have been read and the
    clients built. *)
Definition main : M unit := for_range repositories main_repo.

End part_000.

(** ** Vocabulary of the specification *)

(** The residual title: the first statements of [linkPullRequestToIssue],
    the title without its leading ["<issueKey>: "] when it starts with
    it. *)
Definition residual_title (title issueKey : string) : string :=
  if strings.HasPrefix title (issueKey +:+ ": ")
  then strings.slice_from (String.length (issueKey +:+ ": ")) title
  else title.

(** The Key Extractor: the key [main] reads from the title, with the
    residual title [linkPullRequestToIssue] derives from it. *)
Definition key_extractor (title : string) : option (string * string) :=
  match part_000.keyRegexp_FindStringSubmatch title with
  | Some issueKey => Some (issueKey, residual_title title issueKey)
  | None => None
  end.

(** A run of digits, and a non-empty one. *)
Fixpoint all_digits (s : string) : bool :=
  match s with
  | "" => true
  | String c s' => regexp.is_digit c && all_digits s'
  end.

Definition is_number (d : string) : Prop := d ≠ "" ∧ all_digits d = true.

Definition starts_with_digit (s : string) : bool :=
  match s with
  | "" => false
  | String c _ => regexp.is_digit c
  end.

(** The input starts with the marker ["<p>-<digits>: "] of one of the
    alternatives, and [k] is ["<p>-<digits>"]. *)
Definition marker_at (alts : list string) (s k : string) : Prop :=
  ∃ p d rest, p ∈ alts ∧ is_number d ∧ k = p +:+ "-" +:+ d
              ∧ s = k +:+ ": " +:+ rest.


(** *** The components of the later version

    The specification names three parts of [part_000]: the Status
    Consistency Checker (the [switch] of [linkPullRequestToIssue], lines
    95-117), the Link Reconciler (the rest of that function, lines
    119-155) and the Attention Classifier (the first [if] of the loop
    body of [main], lines 212-224).  Each is written out here as the
    source has it; [linkPullRequestToIssue_parts] and [main_pr_parts]
    below show that the functions are made of exactly these parts. *)

Definition status_checker (pr : github.PullRequest)
    (issueKey title status : string) : M unit :=
  if String.eqb (github.State pr) "open" then
    let labels := part_000.pullRequestLabels pr in
    (if negb (part_000.contains labels "do-not-merge/hold") then
       klog_V_Infof 1 "The pull request %s is open and it's not on hold. Please make sure that it has got all approvals or put it on hold."
         [part_000.pullRequestLink pr]
     else ret tt);;
    if strings.Contains title "WIP" then
      if negb (String.eqb status "In Progress") then
        klog_V_Infof 1 "%s: got %s, want In Progress" [issueKey; status]
      else ret tt
    else
      if negb (String.eqb status "Code Review") then
        klog_V_Infof 1 "%s: got %s, want Code Review" [issueKey; status]
      else ret tt
  else if String.eqb (github.State pr) "closed" then
    if github.Merged pr && negb (String.eqb status "On QA")
       && negb (String.eqb status "Done") then
      klog_V_Infof 1 "%s: got %s, want On QA or Done" [issueKey; status]
    else ret tt
  else
    klog_Warningf "%s: unexpected state %q"
      [part_000.pullRequestLink pr; github.State pr].

Definition link_reconciler (pr : github.PullRequest)
    (issueKey title : string) : M unit :=
  r ← jiraClient_Issue_GetRemoteLinks issueKey;
  match r with
  | Err err => klog_Fatal err
  | Ok links =>
      let remoteURL := part_000.pullRequestLink pr in
      let remoteTitle := part_000.pullRequestLinkTitle pr +:+ ": " +:+ title in
      returned ← for_range_return links (λ link,
        if String.eqb (jira.URL (jira.Object link)) remoteURL
        then klog_V_Infof 3 "%s is already linked to %s"
               [part_000.pullRequestLinkTitle pr; issueKey];;
             ret true
        else ret false);
      if returned then ret tt
      else
        klog_V_Infof 1 "Linking the pull request %s to the issue %s..."
          [part_000.pullRequestLinkTitle pr; issueKey];;
        let link :=
          {| jira.Object :=
               {| jira.URL := remoteURL;
                  jira.Title := remoteTitle;
                  jira.Icon :=
                    {| jira.Url16x16 := "https://github.com/favicon.ico";
                       jira.IconTitle := "GitHub" |} |} |} in
        r ← jiraClient_POST_remotelink issueKey link;
        match r with
        | Err err => klog_Fatal err
        | Ok _ => ret tt
        end
  end.

Definition attention_classifier (pr : github.PullRequest)
    (match_ : option string) : M unit :=
  if String.eqb (github.State pr) "open"
     && (map_index part_000.team (github.User_Login pr)
         || map_index part_000.teamRepos (github.Base_Repo_FullName pr)) then
    if negb (strings.Contains (github.Title pr) "WIP") then
      match match_ with
      | None =>
          if negb (part_000.bugRegexp_MatchString (github.Title pr)) then
            klog_V_Infof 1 "The pull request %s is not assigned to a bug nor a story: %s"
              [part_000.pullRequestLink pr; github.Title pr]
          else
            klog_V_Infof 1 "Awaiting review (bugfix): %s: %s"
              [part_000.pullRequestLink pr; github.Title pr]
      | Some _ =>
          klog_V_Infof 1 "Awaiting review (feature): %s: %s"
            [part_000.pullRequestLink pr; github.Title pr]
      end
    else ret tt
  else ret tt.

(** *** Observing a run *)

(** The world with more events recorded. *)
Definition log (es : list Event) (w : World) : World :=
  {| pulls := pulls w; issues := issues w; faults := faults w;
     trace := trace w ++ es |}.

(** The world with one more entry at the head of the fault list. *)
Definition with_fault (b : bool) (w : World) : World :=
  {| pulls := pulls w; issues := issues w; faults := b :: faults w;
     trace := trace w |}.

(** A world with nothing in it. *)
Definition blank : World :=
  {| pulls := ∅; issues := ∅; faults := []; trace := [] |}.

(** What a run from [w] adds to the trace. *)
Definition run_events {A} (m : M A) (w : World) : list Event :=
  drop (length (trace w)) (trace (m w).2).

(** The link the run builds for a pull request. *)
Definition link_of (pr : github.PullRequest) (issueKey : string)
  : jira.RemoteLink :=
  {| jira.Object :=
       {| jira.URL := part_000.pullRequestLink pr;
          jira.Title := part_000.pullRequestLinkTitle pr +:+ ": "
                          +:+ residual_title (github.Title pr) issueKey;
          jira.Icon := {| jira.Url16x16 := "https://github.com/favicon.ico";
                          jira.IconTitle := "GitHub" |} |} |}.

(** Some link of the list has the URL. *)
Definition links_have_url (links : list jira.RemoteLink) (url : string)
  : bool :=
  existsb (λ link, String.eqb (jira.URL (jira.Object link)) url) links.

(** The links the server holds for an issue (none for an unknown key). *)
Definition links_of (w : World) (issueKey : string) : list jira.RemoteLink :=
  match issues w !! issueKey with
  | Some r => remotelinks r
  | None => []
  end.

(** The link-creation requests among the events, and the links of those
    that succeeded. *)
Definition is_post (e : Event) : bool :=
  match e with
  | Remote (POST _ _) _ => true
  | _ => false
  end.

Definition posts (t : list Event) : list Event := List.filter is_post t.

Fixpoint created (t : list Event) : list jira.RemoteLink :=
  match t with
  | [] => []
  | Remote (POST _ body) None :: t' => body :: created t'
  | _ :: t' => created t'
  end.

(** The calls to the Jira server among the events. *)
Definition is_jira_call (e : Event) : bool :=
  match e with
  | Remote (Issue_Get _) _ | Remote (Issue_GetRemoteLinks _) _
  | Remote (POST _ _) _ => true
  | _ => false
  end.

(** The three kinds of advisory diagnostics, by the format string of the
    log statement. *)
Definition is_mismatch (e : Event) : bool :=
  match e with
  | Infof _ format _ => strings.HasPrefix format "%s: got %s, want "
  | _ => false
  end.

Definition hold_advisory (pr : github.PullRequest) : Event :=
  Infof 1 "The pull request %s is open and it's not on hold. Please make sure that it has got all approvals or put it on hold."
    [part_000.pullRequestLink pr].

Definition is_hold_advisory (e : Event) : bool :=
  match e with
  | Infof _ format _ =>
      String.eqb format "The pull request %s is open and it's not on hold. Please make sure that it has got all approvals or put it on hold."
  | _ => false
  end.

Inductive Attention := Unassigned | AwaitingBugfix | AwaitingFeature.

Definition attention_format (a : Attention) : string :=
  match a with
  | Unassigned => "The pull request %s is not assigned to a bug nor a story: %s"
  | AwaitingBugfix => "Awaiting review (bugfix): %s: %s"
  | AwaitingFeature => "Awaiting review (feature): %s: %s"
  end.

Definition attention_event (pr : github.PullRequest) (a : Attention) : Event :=
  Infof 1 (attention_format a) [part_000.pullRequestLink pr; github.Title pr].

Definition is_attention (e : Event) : bool :=
  match e with
  | Infof _ format _ =>
      String.eqb format (attention_format Unassigned)
      || String.eqb format (attention_format AwaitingBugfix)
      || String.eqb format (attention_format AwaitingFeature)
  | _ => false
  end.

(** A failed remote call, or the exit through [klog.Fatal]. *)
Definition is_failure (e : Event) : bool :=
  match e with
  | Fatal _ | Remote _ (Some _) => true
  | _ => false
  end.

(** A property of every run of a computation: what it adds to the trace,
    with its outcome. *)
Definition satisfies {A} (m : M A)
    (Q : list Event → Outcome A → Prop) : Prop :=
  ∀ w, ∃ t, trace (m w).2 = trace w ++ t ∧ Q t (m w).1.

(** The error discipline: a run that returns has met no failure; a run
    that exits has met exactly one failed remote call, its last call,
    followed at once by the fatal log of that error. *)
Definition disciplined {A} (t : list Event) (o : Outcome A) : Prop :=
  match o with
  | Returned _ => Forall (λ e, is_failure e = false) t
  | Exited =>
      ∃ t1 req err, t = t1 ++ [Remote req (Some err); Fatal err]
                    ∧ Forall (λ e, is_failure e = false) t1
  end.

(** What a computation that only logs records, read off a run from the
    blank world. *)
Definition logged (m : M unit) : list Event := trace (m blank).2.

(** The first log statement of [linkPullRequestToIssue]. *)
Definition checking (pr : github.PullRequest) (issueKey : string) : Event :=
  Infof 3 "Checking if %s is linked to %s..."
    [part_000.pullRequestLinkTitle pr; issueKey].

(** A log statement below the fatal level. *)
Definition is_log (e : Event) : bool :=
  match e with
  | Infof _ _ _ | Warningf _ _ => true
  | _ => false
  end.

(** Any of the three kinds of advisory diagnostics. *)
Definition is_advisory (e : Event) : bool :=
  is_mismatch e || is_hold_advisory e || is_attention e.

(** The byte ['W'] occurs nowhere in the string. *)
Fixpoint no_W (s : string) : bool :=
  match s with
  | "" => true
  | String c s' => negb (Ascii.eqb c "W") && no_W s'
  end.

(** The mismatch diagnostic the state table asks for, if any: the
    expectation of the table, for a pull request in the given state,
    against the status of the issue. *)
Definition expected_mismatch (state : string) (wip merged : bool)
    (issueKey st : string) : list Event :=
  if String.eqb state "open" then
    if wip then
      if String.eqb st "In Progress" then []
      else [Infof 1 "%s: got %s, want In Progress" [issueKey; st]]
    else
      if String.eqb st "Code Review" then []
      else [Infof 1 "%s: got %s, want Code Review" [issueKey; st]]
  else if String.eqb state "closed" then
    if merged then
      if String.eqb st "On QA" || String.eqb st "Done" then []
      else [Infof 1 "%s: got %s, want On QA or Done" [issueKey; st]]
    else []
  else [].

(** *** Example data *)

Definition example_pr : github.PullRequest :=
  {| github.Title := "IR-123: Fix registry pruning";
     github.State := "open";
     github.Merged := false;
     github.Number := 42;
     github.User_Login := "dmage";
     github.Base_Repo_FullName := "openshift/image-registry";
     github.Labels := [] |}.

(** A world whose Jira server knows the one issue [IR-123]. *)
Definition example_world (st : string) (links : list jira.RemoteLink)
  : World :=
  {| pulls := ∅;
     issues := {[ "IR-123" := {| status := st; remotelinks := links |} ]};
     faults := [];
     trace := [] |}.

(** A creation request, if the event is one, is the request for the link
    of the pull request on the issue. *)
Definition post_of_pr (pr : github.PullRequest) (issueKey : string)
    (e : Event) : Prop :=
  match e with
  | Remote (POST path body) _ =>
      path = "rest/api/2/issue/" +:+ issueKey +:+ "/remotelink"
      ∧ body = link_of pr issueKey
  | _ => True
  end.

(** The calls of the Link Reconciler among the events. *)
Definition is_link_call (e : Event) : bool :=
  match e with
  | Remote (Issue_GetRemoteLinks _) _ | Remote (POST _ _) _ => true
  | _ => false
  end.

(** ** Start-up: the environment ([getEnv] and the first statements of
    [main], the same in both versions) *)

(** [os.Getenv(name)]: the value of the variable, empty when it is not
    set. *)
Definition os_Getenv (env : gmap string string) (name : string) : string :=
  default "" (env !! name).

(** The outcome of a statement that may leave through [klog.Exitf]: the
    value, or the format and the arguments of the message logged on
    exit. *)
Inductive Startup (A : Type) :=
| Started (a : A)
| Exitf (format : string) (args : list string).
Arguments Started {A} a.
Arguments Exitf {A} format args.

Definition getEnv (env : gmap string string) (name : string)
  : Startup string :=
  let value := os_Getenv env name in
  if String.eqb value "" then
    Exitf "The environment variable %s is not set or empty. Please set it and try again."
      [name]
  else Started value.

Record BasicAuthTransport := { Username : string; Password : string }.

(** [main] from the end of the flag parsing up to the transport:
    [baseURL], then the fields of [tp] in the order they are written. *)
Definition main_environment (env : gmap string string)
  : Startup (string * BasicAuthTransport) :=
  match getEnv env "JIRA_BASE_URL" with
  | Exitf format args => Exitf format args
  | Started baseURL =>
      match getEnv env "JIRA_USERNAME" with
      | Exitf format args => Exitf format args
      | Started username =>
          match getEnv env "JIRA_PASSWORD" with
          | Exitf format args => Exitf format args
          | Started password =>
              Started (baseURL,
                       {| Username := username; Password := password |})
          end
      end
  end.

(** *** More vocabulary *)

(** A variable that is set to a non-empty value. *)
Definition is_set (env : gmap string string) (name : string) : Prop :=
  ∃ value, env !! name = Some value ∧ value ≠ "".

(** The byte occurs nowhere in the string. *)
Fixpoint without (c : ascii) (s : string) : bool :=
  match s with
  | "" => true
  | String d s' => negb (Ascii.eqb d c) && without c s'
  end.

(** The Jira server of [w'] is that of [w] with, possibly, links added at
    the end of the links of some issues: the same issues, each with the
    same status; and the GitHub server is the same. *)
Definition grows (w w' : World) : Prop :=
  pulls w' = pulls w
  ∧ ∀ k, option_Forall2
           (λ r r', status r' = status r
                    ∧ remotelinks r `prefix_of` remotelinks r')
           (issues w !! k) (issues w' !! k).

(** The issue of the key read from the title of the pull request, if
    there is a key, holds a link with the URL of the pull request. *)
Definition pr_linked (w : World) (pr : github.PullRequest) : Prop :=
  ∀ issueKey,
    part_000.keyRegexp_FindStringSubmatch (github.Title pr) = Some issueKey →
    links_have_url (links_of w issueKey) (part_000.pullRequestLink pr) = true.

(** A run that leaves the issues as they are and issues no creation
    request. *)
Definition quiet {A} (m : M A) (w : World) : Prop :=
  issues (m w).2 = issues w ∧ pulls (m w).2 = pulls w
  ∧ ∃ t, trace (m w).2 = trace w ++ t ∧ posts t = [].

(** A key of the project [IR]. *)
Definition is_IR_key (k : string) : Prop :=
  ∃ d, is_number d ∧ k = "IR-" +:+ d.

(** A call to the Jira server, if the event is one, is a call about the
    issue of the key. *)
Definition call_about (k : string) (e : Event) : Prop :=
  match e with
  | Remote (Issue_Get k') _ | Remote (Issue_GetRemoteLinks k') _ => k' = k
  | Remote (POST path _) _ =>
      path = "rest/api/2/issue/" +:+ k +:+ "/remotelink"
  | _ => True
  end.

(** A call to the Jira server, if the event is one, is a call about an
    issue of the project [IR]. *)
Definition call_about_IR (e : Event) : Prop :=
  match e with
  | Remote (PullRequests_List _ _) _ => True
  | Remote _ _ => ∃ k, is_IR_key k ∧ call_about k e
  | _ => True
  end.

(** The listing calls among the events. *)
Definition is_list_call (e : Event) : bool :=
  match e with
  | Remote (PullRequests_List _ _) _ => true
  | _ => false
  end.

(** The events of a computation are all of one kind. *)
Definition emits {A} (P : Event → Prop) (m : M A) : Prop :=
  satisfies m (λ t _, Forall P t).

(** An event of the Link Reconciler: a call for the links, a creation
    request, one of its two log statements, or the fatal log. *)
Definition is_reconciler_event (e : Event) : bool :=
  match e with
  | Remote (Issue_GetRemoteLinks _) _ | Remote (POST _ _) _ | Fatal _ => true
  | Infof _ format _ =>
      String.eqb format "%s is already linked to %s"
      || String.eqb format "Linking the pull request %s to the issue %s..."
  | _ => false
  end.

(** Every run of the computation leaves servers grown from those it
    found. *)
Definition growing {A} (m : M A) : Prop := ∀ w, grows w (m w).2.

(** A world where GitHub lists [example_pr] for the first repository and
    nothing for the others, and Jira knows the issue [IR-123], in review
    and without links. *)
Definition example_run_world : World :=
  {| pulls := <[("openshift", "api") := [example_pr]]>
                (list_to_map ((λ repo, (repo, [])) <$> part_000.repositories));
     issues := {[ "IR-123" := {| status := "Code Review"; remotelinks := [] |} ]};
     faults := [];
     trace := [] |}.

(** The listing call for a repository, with its result. *)
Definition list_call (repo : string * string) (res : option error) : Event :=
  Remote (PullRequests_List repo.1 repo.2) res.

(** The listing calls of a run over the repositories [l]: one successful
    call per repository, in order, when the run returns; when it exits,
    the same up to some repository, whose call is the last one. *)
Definition listing (l : list (string * string)) (t : list Event)
    (o : Outcome unit) : Prop :=
  match o with
  | Returned _ =>
      List.filter is_list_call t = (λ repo, list_call repo None) <$> l
  | Exited =>
      ∃ l1 repo l2 res,
        l = l1 ++ repo :: l2
        ∧ List.filter is_list_call t
          = ((λ repo, list_call repo None) <$> l1) ++ [list_call repo res]
  end.

(** ** Facts about strings *)

Section string_facts.

Implicit Types s p r : string.

Lemma app_cons c s r : String c s +:+ r = String c (s +:+ r).
Proof. reflexivity. Qed.

Lemma app_empty s : "" +:+ s = s.
Proof. reflexivity. Qed.

Lemma app_assoc' s p r : (s +:+ p) +:+ r = s +:+ p +:+ r.
Proof. induction s as [|c s IH]; [done|]. by rewrite !app_cons, IH. Qed.

Lemma HasPrefix_iff s p :
  strings.HasPrefix s p = true ↔ ∃ r, s = p +:+ r.
Proof.
  revert s. induction p as [|c p IH]; intros s; simpl.
  - split; [by exists s|done].
  - destruct s as [|d s].
    + split; [done|]. intros [r Hr]. discriminate.
    + destruct (Ascii.eqb_spec d c) as [->|Hne].
      * rewrite IH. split; intros [r Hr]; exists r.
        -- by rewrite app_cons, Hr.
        -- rewrite app_cons in Hr. by injection Hr.
      * split; [done|]. intros [r Hr]. rewrite app_cons in Hr.
        injection Hr as ? ?. done.
Qed.

Lemma slice_from_app p r :
  strings.slice_from (String.length p) (p +:+ r) = r.
Proof. induction p as [|c p IH]; [done|]. by rewrite app_cons. Qed.

Lemma lit_Some p s r : regexp.lit p s = Some r ↔ s = p +:+ r.
Proof.
  unfold regexp.lit. destruct (strings.HasPrefix s p) eqn:E.
  - apply HasPrefix_iff in E as [r' ->]. rewrite slice_from_app.
    split; [by intros [= ->]|]. by intros ->%(inj _).
  - split; [done|]. intros ->.
    assert (strings.HasPrefix (p +:+ r) p = true) by (apply HasPrefix_iff; eauto).
    congruence.
Qed.

Lemma lit_None p s : regexp.lit p s = None ↔ ∀ r, s ≠ p +:+ r.
Proof.
  split.
  - intros E r Hr. apply lit_Some in Hr. congruence.
  - intros H. destruct (regexp.lit p s) as [r|] eqn:E; [|done].
    apply lit_Some in E. by destruct (H r).
Qed.

End string_facts.

(** ** Facts about the two patterns *)

Section regexp_facts.

Implicit Types s d r k : string.

Lemma digits_spec s d r :
  regexp.digits s = (d, r) →
  s = d +:+ r ∧ all_digits d = true ∧ starts_with_digit r = false.
Proof.
  revert d r. induction s as [|c s IH]; intros d r; simpl.
  - by intros [= <- <-].
  - destruct (regexp.is_digit c) eqn:Ec.
    + destruct (regexp.digits s) as [d' r'].
      destruct (IH d' r' eq_refl) as (-> & Hd & Hr).
      intros [= <- <-]. simpl. by rewrite Ec, Hd.
    + intros [= <- <-]. simpl. by rewrite Ec.
Qed.

Lemma digits_app d r :
  all_digits d = true → starts_with_digit r = false →
  regexp.digits (d +:+ r) = (d, r).
Proof.
  intros Hd Hr. induction d as [|c d IH]; simpl in *.
  - rewrite app_empty. destruct r as [|c r]; [done|].
    simpl in *. by rewrite Hr.
  - apply andb_prop in Hd as [Hc Hd]. by rewrite Hc, IH.
Qed.

Lemma number_colon_Some s d :
  regexp.number_colon s = Some d ↔
  is_number d ∧ ∃ rest, s = d +:+ ": " +:+ rest.
Proof.
  unfold regexp.number_colon, is_number. split.
  - destruct (regexp.digits s) as [d' r] eqn:E.
    apply digits_spec in E as (-> & Hd & _).
    destruct d' as [|c d']; [done|].
    destruct (regexp.lit ": " r) as [rest|] eqn:El; [|done].
    apply lit_Some in El as ->. intros [= <-]. eauto.
  - intros ((Hne & Hd) & rest & ->).
    rewrite digits_app by done.
    destruct d as [|c d]; [done|].
    by rewrite (proj2 (lit_Some ": " _ rest) eq_refl).
Qed.

Lemma key_tail_Some s d :
  regexp.key_tail s = Some d ↔
  is_number d ∧ ∃ rest, s = "-" +:+ d +:+ ": " +:+ rest.
Proof.
  unfold regexp.key_tail. split.
  - destruct (regexp.lit "-" s) as [r|] eqn:El; [|done].
    apply lit_Some in El as ->. intros (? & rest & ->)%number_colon_Some.
    eauto.
  - intros (Hd & rest & ->).
    rewrite (proj2 (lit_Some "-" _ _) eq_refl).
    apply number_colon_Some. eauto.
Qed.

Lemma match_key_here_Some alts s k :
  regexp.match_key_here alts s = Some k → marker_at alts s k.
Proof.
  induction alts as [|p alts IH]; simpl; [done|].
  assert (marker_at alts s k → marker_at (p :: alts) s k) as Hweak.
  { intros (p' & d & rest & ? & ?). exists p', d, rest.
    split; [by right|done]. }
  destruct (regexp.lit p s) as [r|] eqn:El; [|by auto].
  destruct (regexp.key_tail r) as [d|] eqn:Et; [|by auto].
  apply lit_Some in El as ->.
  apply key_tail_Some in Et as (Hd & rest & ->).
  intros [= <-]. exists p, d, rest. split; [by left|].
  split; [done|]. split; [done|].
  by rewrite !app_assoc'.
Qed.

Lemma match_key_here_None alts s :
  regexp.match_key_here alts s = None ↔ ∀ k, ¬ marker_at alts s k.
Proof.
  split.
  - induction alts as [|p alts IH]; simpl.
    + intros _ k (p & ? & ? & []%elem_of_nil & _).
    + intros E k (p' & d & rest & Hin & Hd & -> & Hs).
      apply elem_of_cons in Hin as [->|Hin].
      * rewrite !app_assoc' in Hs.
        rewrite (proj2 (lit_Some p s _) Hs) in E.
        rewrite (proj2 (key_tail_Some _ d)) in E; [done|]. eauto.
      * assert (regexp.match_key_here alts s = None) as E'.
        { destruct (regexp.lit p s); [|done].
          by destruct (regexp.key_tail _). }
        apply (IH E' (p' +:+ "-" +:+ d)). by exists p', d, rest.
  - intros H. destruct (regexp.match_key_here alts s) as [k|] eqn:E; [|done].
    apply match_key_here_Some in E. by destruct (H k).
Qed.

Lemma find_key_None alts s :
  regexp.find_key alts s = None ↔
  ∀ pre rest k, s = pre +:+ rest → ¬ marker_at alts rest k.
Proof.
  induction s as [|c s IH]; simpl.
  - destruct (regexp.match_key_here alts "") as [k|] eqn:E.
    + split; [done|]. intros H. apply match_key_here_Some in E.
      by destruct (H "" "" k).
    + split; [|done]. intros _ pre rest k Hs.
      destruct pre; [|done]. rewrite app_empty in Hs. subst rest.
      by apply match_key_here_None.
  - destruct (regexp.match_key_here alts (String c s)) as [k|] eqn:E.
    + split; [done|]. intros H. apply match_key_here_Some in E.
      by destruct (H "" (String c s) k).
    + rewrite IH. split.
      * intros H [|c' pre] rest k Hs.
        -- rewrite app_empty in Hs. subst rest.
           by apply match_key_here_None.
        -- rewrite app_cons in Hs. injection Hs as -> ->. by apply (H pre).
      * intros H pre rest k ->. apply (H (String c pre)). by rewrite app_cons.
Qed.

(** The match found is the leftmost one. *)
Lemma find_key_Some alts s k :
  regexp.find_key alts s = Some k →
  ∃ pre rest, s = pre +:+ rest ∧ marker_at alts rest k
    ∧ (pre = "" ∨ regexp.match_key_here alts s = None)
    ∧ ∀ pre1 pre2 k', pre = pre1 +:+ pre2 → pre2 ≠ "" →
        ¬ marker_at alts (pre2 +:+ rest) k'.
Proof.
  induction s as [|c s IH]; simpl.
  - destruct (regexp.match_key_here alts "") as [k'|] eqn:E; [|done].
    intros [= ->]. apply match_key_here_Some in E.
    exists "", "". split; [done|]. split; [done|]. split; [by left|].
    intros [|] [|]; done.
  - destruct (regexp.match_key_here alts (String c s)) as [k'|] eqn:E.
    + intros [= ->]. apply match_key_here_Some in E.
      exists "", (String c s). split; [done|]. split; [done|].
      split; [by left|]. intros [|] [|]; done.
    + intros (pre & rest & -> & Hm & _ & Hleft)%IH.
      exists (String c pre), rest. split; [by rewrite app_cons|].
      split; [done|]. split; [by right|].
      intros [|c' pre1] pre2 k' Hpre Hne.
      * rewrite app_empty in Hpre. subst pre2. rewrite app_cons.
        by apply match_key_here_None.
      * rewrite app_cons in Hpre. injection Hpre as -> ->.
        by apply (Hleft pre1).
Qed.

End regexp_facts.

(** ** The Key Extractor *)

Section key_extractor_facts.

Implicit Types title key d rest : string.

Lemma IR_alternatives :
  regexp.key_alternatives part_000.jiraProjects = ["IR"].
Proof. reflexivity. Qed.

Lemma marker_at_IR s k :
  marker_at ["IR"] s k ↔
  ∃ d rest, is_number d ∧ k = "IR-" +:+ d ∧ s = k +:+ ": " +:+ rest.
Proof.
  split.
  - intros (p & d & rest & ->%list_elem_of_singleton & Hd & -> & ->).
    by exists d, rest.
  - intros (d & rest & Hd & -> & ->). exists "IR", d, rest.
    split; [by apply list_elem_of_singleton|done].
Qed.

(** Two numbers each followed by a colon at the head of one string are
    the same number. *)
Lemma number_colon_inj d d' rest rest' :
  is_number d → is_number d' →
  d +:+ ": " +:+ rest = d' +:+ ": " +:+ rest' → d = d' ∧ rest = rest'.
Proof.
  intros Hd Hd' E.
  assert (regexp.number_colon (d +:+ ": " +:+ rest) = Some d) as H1
    by (apply number_colon_Some; eauto).
  assert (regexp.number_colon (d +:+ ": " +:+ rest) = Some d') as H2
    by (apply number_colon_Some; eauto).
  rewrite H1 in H2. injection H2 as <-. split; [done|].
  apply String.app_inj in E. by apply String.app_inj in E.
Qed.

Lemma residual_title_marker key rest :
  residual_title (key +:+ ": " +:+ rest) key = rest.
Proof.
  unfold residual_title. rewrite <- app_assoc'.
  rewrite (proj2 (HasPrefix_iff _ _)) by eauto.
  apply slice_from_app.
Qed.

Lemma residual_title_other title key :
  (∀ rest, title ≠ key +:+ ": " +:+ rest) →
  residual_title title key = title.
Proof.
  intros H. unfold residual_title.
  destruct (strings.HasPrefix _ _) eqn:E; [|done].
  apply HasPrefix_iff in E as [rest ->]. rewrite app_assoc' in H.
  by destruct (H rest).
Qed.

End key_extractor_facts.

(** C1, the part that holds: for a title ["IR-<digits>: rest"] the key is
    ["IR-<digits>"] and the residual title is [rest]. *)
Lemma key_extractor_prefixed (d rest : string) :
  is_number d →
  key_extractor ("IR-" +:+ d +:+ ": " +:+ rest) = Some ("IR-" +:+ d, rest).
Proof.
  intros Hd. unfold key_extractor, part_000.keyRegexp_FindStringSubmatch.
  rewrite IR_alternatives.
  destruct (regexp.find_key _ _) as [k|] eqn:E.
  - apply find_key_Some in E as (pre & s & Hs & Hm & Hpre & _).
    destruct Hpre as [->|Hnone].
    + rewrite app_empty in Hs. subst s.
      apply marker_at_IR in Hm as (d' & rest' & Hd' & -> & Hs).
      rewrite !app_assoc' in Hs. apply String.app_inj in Hs.
      destruct (number_colon_inj _ _ _ _ Hd Hd' Hs) as [<- <-].
      f_equal. f_equal. rewrite <- (residual_title_marker ("IR-" +:+ d) rest) at 2.
      by rewrite !app_assoc'.
    + exfalso. eapply (proj1 (match_key_here_None _ _) Hnone ("IR-" +:+ d)).
      apply marker_at_IR. exists d, rest. by rewrite !app_assoc'.
  - exfalso. eapply (proj1 (find_key_None _ _) E "" _ ("IR-" +:+ d)); [done|].
    apply marker_at_IR. exists d, rest. by rewrite !app_assoc'.
Qed.

(** C1, as the code has it: the pattern is searched for in the whole
    title.  The key returned is that of the leftmost occurrence of
    ["IR-<digits>: "], wherever it starts; the residual title is what
    follows the marker when the title starts with it and the whole title
    otherwise; no key is returned exactly when the marker occurs nowhere.
    For a title ["IR-<digits>: rest"] this gives the key ["IR-<digits>"]
    and the residual title [rest]. *)
Theorem key_extractor_leftmost (title : string) :
  (∀ d rest, is_number d → title = "IR-" +:+ d +:+ ": " +:+ rest →
     key_extractor title = Some ("IR-" +:+ d, rest))
  ∧ match key_extractor title with
    | Some (key, residual) =>
        ∃ pre d rest,
          title = pre +:+ key +:+ ": " +:+ rest
          ∧ key = "IR-" +:+ d ∧ is_number d
          ∧ (∀ pre1 pre2 d' rest', pre = pre1 +:+ pre2 → pre2 ≠ "" →
               is_number d' →
               pre2 +:+ key +:+ ": " +:+ rest
                 ≠ "IR-" +:+ d' +:+ ": " +:+ rest')
          ∧ residual = (if decide (pre = "") then rest else title)
    | None =>
        ∀ pre d rest, is_number d →
          title ≠ pre +:+ "IR-" +:+ d +:+ ": " +:+ rest
    end.
Proof.
  split.
  { intros d rest Hd ->. by apply key_extractor_prefixed. }
  unfold key_extractor, part_000.keyRegexp_FindStringSubmatch.
  rewrite IR_alternatives.
  destruct (regexp.find_key _ _) as [key|] eqn:E.
  - apply find_key_Some in E as (pre & s & -> & Hm & Hpre & Hleft).
    apply marker_at_IR in Hm as (d & rest & Hd & -> & ->).
    exists pre, d, rest. split; [done|]. split; [done|]. split; [done|].
    split.
    + intros pre1 pre2 d' rest' -> Hne Hd' Heq.
      apply (Hleft pre1 pre2 ("IR-" +:+ d') eq_refl Hne).
      apply marker_at_IR. exists d', rest'. split; [done|]. split; [done|].
      by rewrite Heq, !app_assoc'.
    + destruct (decide (pre = "")) as [->|Hne].
      * rewrite app_empty. apply residual_title_marker.
      * destruct Hpre as [?|Hnone]; [done|].
        apply residual_title_other. intros rest' Heq.
        apply (proj1 (match_key_here_None _ _) Hnone ("IR-" +:+ d)).
        apply marker_at_IR. by exists d, rest'.
  - intros pre d rest Hd ->.
    apply (proj1 (find_key_None _ _) E pre _ ("IR-" +:+ d) eq_refl).
    apply marker_at_IR. exists d, rest. by rewrite !app_assoc'.
Qed.

Lemma key_extractor_leftmost_witness :
  key_extractor "IR-123: Fix registry pruning"
  = Some ("IR-123", "Fix registry pruning").
Proof.
  apply (proj1 (key_extractor_leftmost "IR-123: Fix registry pruning")
           "123" "Fix registry pruning").
  - split; [discriminate | reflexivity].
  - reflexivity.
Defined.

(** C1 fails as stated: a title that has the marker after other text is
    not of the form ["<prefix>-<digits>: rest"], yet a key is returned. *)
Lemma key_extractor_not_anchored :
  let title := "Revert IR-7: x" in
  (∀ p d rest, p ∈ part_000.jiraProjects →
     title ≠ p +:+ "-" +:+ d +:+ ": " +:+ rest)
  ∧ key_extractor title = Some ("IR-7", "Revert IR-7: x").
Proof.
  split; [|reflexivity].
  intros p d rest ->%list_elem_of_singleton. discriminate.
Qed.

(** ** The functions and their parts *)

Lemma linkPullRequestToIssue_parts pr issueKey :
  part_000.linkPullRequestToIssue pr issueKey =
  (klog_V_Infof 3 "Checking if %s is linked to %s..."
     [part_000.pullRequestLinkTitle pr; issueKey];;
   r ← jiraClient_Issue_Get issueKey;
   match r with
   | Err err => klog_Fatal err
   | Ok issue =>
       status_checker pr issueKey (residual_title (github.Title pr) issueKey)
         (jira.Fields_Status_Name issue);;
       link_reconciler pr issueKey (residual_title (github.Title pr) issueKey)
   end).
Proof. reflexivity. Qed.

Lemma main_pr_parts pr :
  part_000.main_pr pr =
  (attention_classifier pr
     (part_000.keyRegexp_FindStringSubmatch (github.Title pr));;
   match part_000.keyRegexp_FindStringSubmatch (github.Title pr) with
   | None => ret tt
   | Some issueKey => part_000.linkPullRequestToIssue pr issueKey
   end).
Proof. reflexivity. Qed.

(** The earlier version is the Link Reconciler alone. *)
Lemma main_go_linkPullRequestToIssue_parts pr issueKey :
  main_go.linkPullRequestToIssue pr issueKey =
  (klog_V_Infof 3 "Checking if %s is linked to %s..."
     [part_000.pullRequestLinkTitle pr; issueKey];;
   link_reconciler pr issueKey (residual_title (github.Title pr) issueKey)).
Proof. reflexivity. Qed.

(** ** Worlds and runs *)

Section world_facts.

Implicit Types w : World.
Implicit Types es t : list Event.

Lemma record_log e w : record e w = log [e] w.
Proof. reflexivity. Qed.

Lemma log_log es1 es2 w : log es2 (log es1 w) = log (es1 ++ es2) w.
Proof. unfold log. simpl. by rewrite (assoc_L (++)). Qed.

Lemma log_nil w : log [] w = w.
Proof. destruct w. unfold log. simpl. by rewrite (right_id_L [] (++)). Qed.

Lemma run_events_eq {A} (m : M A) w t :
  trace (m w).2 = trace w ++ t → run_events m w = t.
Proof. intros E. unfold run_events. rewrite E. apply drop_app_length. Qed.

(** The loop over the links, with its early [return]. *)
Lemma scan_links links url (args : list string) w :
  for_range_return links (λ link,
    if String.eqb (jira.URL (jira.Object link)) url
    then klog_V_Infof 3 "%s is already linked to %s" args;; ret true
    else ret false) w
  = if links_have_url links url
    then (Returned true,
          log [Infof 3 "%s is already linked to %s" args] w)
    else (Returned false, w).
Proof.
  induction links as [|link links IH]; simpl; [done|].
  unfold bind at 1.
  destruct (String.eqb _ url); simpl; [done|]. apply IH.
Qed.

End world_facts.

Section reconciler_run.

Variables (pr : github.PullRequest) (issueKey title : string).

Let get := Remote (Issue_GetRemoteLinks issueKey).
Let link :=
  {| jira.Object :=
       {| jira.URL := part_000.pullRequestLink pr;
          jira.Title := part_000.pullRequestLinkTitle pr +:+ ": " +:+ title;
          jira.Icon := {| jira.Url16x16 := "https://github.com/favicon.ico";
                          jira.IconTitle := "GitHub" |} |} |}.
Let post := Remote (POST ("rest/api/2/issue/" +:+ issueKey +:+ "/remotelink") link).
Let already :=
  Infof 3 "%s is already linked to %s"
    [part_000.pullRequestLinkTitle pr; issueKey].
Let linking :=
  Infof 1 "Linking the pull request %s to the issue %s..."
    [part_000.pullRequestLinkTitle pr; issueKey].

(** What the Link Reconciler does, case by case. *)
Lemma link_reconciler_run w :
  link_reconciler pr issueKey title w =
  let w1 := (take_fault w).2 in
  if (take_fault w).1
  then (Exited, log [get (Some ErrTransport); Fatal ErrTransport] w1)
  else
    match issues w !! issueKey with
    | None => (Exited, log [get (Some ErrNotFound); Fatal ErrNotFound] w1)
    | Some r =>
        if links_have_url (remotelinks r) (part_000.pullRequestLink pr)
        then (Returned tt, log [get None; already] w1)
        else
          let w2 := (take_fault w1).2 in
          if (take_fault w1).1
          then (Exited,
                log [get None; linking; post (Some ErrTransport);
                     Fatal ErrTransport] w2)
          else (Returned tt,
                set_issues
                  (<[issueKey :=
                       {| status := status r;
                          remotelinks := remotelinks r ++ [link] |}]>
                     (issues w))
                  (log [get None; linking; post None] w2))
    end.
Proof.
  unfold link_reconciler, jiraClient_Issue_GetRemoteLinks. unfold bind at 1.
  unfold remote_call at 1.
  destruct w as [ps iss fs t]. unfold take_fault at 1 2 3. simpl.
  destruct fs as [|[] fs]; simpl.
  - destruct (iss !! issueKey) as [r|] eqn:E; simpl.
    + unfold bind at 1. rewrite scan_links.
      destruct (links_have_url _ _); simpl.
      * unfold log. simpl. by rewrite <- (assoc_L (++)).
      * unfold bind, klog_V_Infof, emit, jiraClient_POST_remotelink,
          remote_call, record, log, set_issues. simpl. rewrite E. simpl.
        by rewrite <- !(assoc_L (++)).
    + unfold klog_Fatal, record, log. simpl. by rewrite <- (assoc_L (++)).
  - unfold klog_Fatal, record, log. simpl. by rewrite <- (assoc_L (++)).
  - destruct (iss !! issueKey) as [r|] eqn:E; simpl.
    + unfold bind at 1. rewrite scan_links.
      destruct (links_have_url _ _); simpl.
      * unfold log. simpl. by rewrite <- (assoc_L (++)).
      * unfold bind, klog_V_Infof, emit, jiraClient_POST_remotelink,
          remote_call, record, log, set_issues, take_fault. simpl.
        destruct fs as [|[] fs]; simpl; rewrite ?E; simpl;
          unfold klog_Fatal, record; simpl;
          by rewrite <- !(assoc_L (++)).
    + unfold klog_Fatal, record, log. simpl. by rewrite <- (assoc_L (++)).
Qed.

End reconciler_run.

Section component_runs.

Implicit Types w : World.
Implicit Types pr : github.PullRequest.

Lemma take_fault_log es w :
  take_fault (log es w) = ((take_fault w).1, log es (take_fault w).2).
Proof. destruct w as [ps iss [|b fs] t]; reflexivity. Qed.

Lemma issues_take_fault w : issues (take_fault w).2 = issues w.
Proof. destruct w as [ps iss [|b fs] t]; reflexivity. Qed.

Lemma trace_take_fault w : trace (take_fault w).2 = trace w.
Proof. destruct w as [ps iss [|b fs] t]; reflexivity. Qed.

Lemma pulls_take_fault w : pulls (take_fault w).2 = pulls w.
Proof. destruct w as [ps iss [|b fs] t]; reflexivity. Qed.

Lemma take_fault_with_fault b w : take_fault (with_fault b w) = (b, w).
Proof. by destruct w. Qed.

(** The Status Consistency Checker only logs. *)
Lemma status_checker_run pr issueKey title st w :
  status_checker pr issueKey title st w =
  (Returned tt, log (logged (status_checker pr issueKey title st)) w).
Proof.
  unfold logged, status_checker, bind, klog_V_Infof, klog_Warningf, emit, ret.
  repeat case_match; simplify_eq/=;
    rewrite ?record_log, ?log_log, ?log_nil; reflexivity.
Qed.

(** The Attention Classifier only logs. *)
Lemma attention_classifier_run pr match_ w :
  attention_classifier pr match_ w =
  (Returned tt, log (logged (attention_classifier pr match_)) w).
Proof.
  unfold logged, attention_classifier, klog_V_Infof, emit, ret.
  repeat case_match; simplify_eq/=;
    rewrite ?record_log, ?log_log, ?log_nil; reflexivity.
Qed.

(** What [linkPullRequestToIssue] does up to the Link Reconciler. *)
Lemma linkPullRequestToIssue_run pr issueKey w :
  part_000.linkPullRequestToIssue pr issueKey w =
  let w1 := (take_fault w).2 in
  let get := Remote (Issue_Get issueKey) in
  if (take_fault w).1
  then (Exited,
        log [checking pr issueKey; get (Some ErrTransport);
             Fatal ErrTransport] w1)
  else
    match issues w !! issueKey with
    | None =>
        (Exited,
         log [checking pr issueKey; get (Some ErrNotFound);
              Fatal ErrNotFound] w1)
    | Some r =>
        let title := residual_title (github.Title pr) issueKey in
        link_reconciler pr issueKey title
          (log (checking pr issueKey :: get None
                  :: logged (status_checker pr issueKey title (status r)))
             w1)
    end.
Proof.
  rewrite linkPullRequestToIssue_parts.
  unfold bind at 1. unfold klog_V_Infof at 1. unfold emit at 1.
  unfold bind at 1. unfold jiraClient_Issue_Get, remote_call.
  rewrite record_log, take_fault_log.
  pose proof (issues_take_fault w) as Hi.
  destruct (take_fault w) as [[] w1]; simpl in *.
  - unfold klog_Fatal. by rewrite !record_log, !log_log.
  - rewrite Hi. destruct (issues w !! issueKey) as [r|] eqn:E.
    + unfold bind at 1. rewrite status_checker_run.
      by rewrite !record_log, !log_log.
    + unfold klog_Fatal. by rewrite !record_log, !log_log.
Qed.

(** What the body of the loop over the pull requests does. *)
Lemma main_pr_run pr w :
  part_000.main_pr pr w =
  let match_ := part_000.keyRegexp_FindStringSubmatch (github.Title pr) in
  let w1 := log (logged (attention_classifier pr match_)) w in
  match match_ with
  | None => (Returned tt, w1)
  | Some issueKey => part_000.linkPullRequestToIssue pr issueKey w1
  end.
Proof.
  rewrite main_pr_parts. unfold bind at 1.
  rewrite attention_classifier_run. by case_match.
Qed.

End component_runs.

(** ** Events *)

Section event_facts.

Implicit Types t : list Event.

Lemma created_app t1 t2 : created (t1 ++ t2) = created t1 ++ created t2.
Proof.
  induction t1 as [|e t1 IH]; [done|].
  destruct e as [| | |[] []]; simpl; by rewrite ?IH.
Qed.

Lemma posts_app t1 t2 : posts (t1 ++ t2) = posts t1 ++ posts t2.
Proof. apply List.filter_app. Qed.

Lemma created_logs t : Forall (λ e, is_log e = true) t → created t = [].
Proof.
  induction 1 as [|e t He _ IH]; [done|].
  by destruct e as [| | |[] []].
Qed.

Lemma filter_logs (f : Event → bool) t :
  (∀ e, is_log e = true → f e = false) →
  Forall (λ e, is_log e = true) t → List.filter f t = [].
Proof.
  intros Hf. induction 1 as [|e t He _ IH]; [done|].
  simpl. by rewrite (Hf e He).
Qed.

Lemma posts_logs t : Forall (λ e, is_log e = true) t → posts t = [].
Proof. apply filter_logs. by intros []. Qed.

Lemma status_checker_logs pr issueKey title st :
  Forall (λ e, is_log e = true) (logged (status_checker pr issueKey title st)).
Proof.
  unfold logged, status_checker, bind, klog_V_Infof, klog_Warningf, emit, ret.
  repeat case_match; simplify_eq/=; repeat constructor.
Qed.

Lemma attention_classifier_logs pr match_ :
  Forall (λ e, is_log e = true) (logged (attention_classifier pr match_)).
Proof.
  unfold logged, attention_classifier, klog_V_Infof, emit, ret.
  repeat case_match; simplify_eq/=; repeat constructor.
Qed.

End event_facts.

(** ** The Link Reconciler is idempotent *)

Section idempotence.

Variables (pr : github.PullRequest) (issueKey : string).

Let L := part_000.linkPullRequestToIssue pr issueKey.
Let url := part_000.pullRequestLink pr.

Lemma links_have_url_app l1 l2 u :
  links_have_url (l1 ++ l2) u = links_have_url l1 u || links_have_url l2 u.
Proof. apply existsb_app. Qed.

Lemma link_of_has_url : links_have_url [link_of pr issueKey] url = true.
Proof.
  unfold links_have_url, url, link_of. simpl. by rewrite String.eqb_refl.
Qed.

(** One run either leaves the issues as they are and creates nothing,
    or finds the issue without the link and adds it. *)
Lemma linkPullRequestToIssue_effect w :
  ∃ t, trace (L w).2 = trace w ++ t
    ∧ ((issues (L w).2 = issues w ∧ created t = []
        ∧ ((L w).1 = Returned tt →
             links_have_url (links_of w issueKey) url = true)
        ∧ (links_have_url (links_of w issueKey) url = true → posts t = []))
       ∨ (links_have_url (links_of w issueKey) url = false
          ∧ (L w).1 = Returned tt
          ∧ created t = [link_of pr issueKey]
          ∧ links_of (L w).2 issueKey
            = links_of w issueKey ++ [link_of pr issueKey])).
Proof.
  unfold L. rewrite linkPullRequestToIssue_run. unfold links_of.
  destruct w as [ps iss fs t]. simpl.
  destruct fs as [|[] [|[] [|[] fs]]]; simpl.
  all: try (eexists; split; [done|]; left; by repeat split).
  all: destruct (iss !! issueKey) as [r|] eqn:E.
  all: try (eexists; split; [done|]; left; by repeat split).
  all: pose proof (status_checker_logs pr issueKey
                     (residual_title (github.Title pr) issueKey) (status r))
         as Hsev.
  all: set (sev := logged _) in *; clearbody sev.
  all: rewrite link_reconciler_run; simpl; rewrite E.
  all: fold url; destruct (links_have_url (remotelinks r) url) eqn:Eu.
  all: eexists; (split;
         [unfold log, set_issues; simpl;
          rewrite <- ?(assoc_L (++)); simpl; reflexivity|]).
  all: unfold checking; simpl; rewrite ?created_app, ?posts_app.
  all: rewrite ?(created_logs _ Hsev), ?(posts_logs _ Hsev); simpl.
  all: try (left; by repeat split).
  all: right; repeat split; try done.
  all: by rewrite lookup_insert_eq.
Qed.

End idempotence.

(** C2: when the links fetched for the issue already hold one with the
    URL of the pull request, [linkPullRequestToIssue] issues no creation
    request and leaves the issues as they are; so a second invocation,
    from any world where the Jira server is as the first one left it,
    creates nothing once the first has returned, the two together create
    at most one link, and so do two invocations in sequence in one
    run. *)
Theorem link_reconciler_idempotent
    (pr : github.PullRequest) (issueKey : string) (w : World) :
  let L := part_000.linkPullRequestToIssue pr issueKey in
  let url := part_000.pullRequestLink pr in
  (links_have_url (links_of w issueKey) url = true →
     posts (run_events L w) = [] ∧ issues (L w).2 = issues w)
  ∧ (∀ w', issues w' = issues (L w).2 →
       length (created (run_events L w) ++ created (run_events L w')) ≤ 1
       ∧ ((L w).1 = Returned tt →
            posts (run_events L w') = [] ∧ issues (L w').2 = issues w'))
  ∧ length (created (run_events (L;; L) w)) ≤ 1.
Proof.
  intros L url.
  destruct (linkPullRequestToIssue_effect pr issueKey w) as (t1 & Ht1 & H1).
  fold L url in Ht1, H1. rewrite (run_events_eq _ _ _ Ht1).
  assert (∀ w', issues w' = issues (L w).2 →
            length (created t1 ++ created (run_events L w')) ≤ 1
            ∧ ((L w).1 = Returned tt →
                 posts (run_events L w') = [] ∧ issues (L w').2 = issues w'))
    as Hsecond.
  { intros w' Hw'.
    destruct (linkPullRequestToIssue_effect pr issueKey w') as (t2 & Ht2 & H2).
    fold L url in Ht2, H2. rewrite (run_events_eq _ _ _ Ht2).
    assert (links_of w' issueKey = links_of (L w).2 issueKey) as Hl
      by (unfold links_of; by rewrite Hw').
    rewrite Hl in H2.
    destruct H1 as [(Hi1 & Hc1 & Hr1 & Hp1)|(Hu1 & Hr1 & Hc1 & Hl1)].
    - rewrite Hc1. simpl.
      assert (links_of (L w).2 issueKey = links_of w issueKey) as Hl'
        by (unfold links_of; by rewrite Hi1).
      rewrite Hl' in H2.
      destruct H2 as [(Hi2 & Hc2 & Hr2 & Hp2)|(Hu2 & Hr2 & Hc2 & Hl2)].
      + rewrite Hc2. simpl. split; [lia|]. intros Hr. split; [|done].
        apply Hp2, Hr1, Hr.
      + rewrite Hc2. simpl. split; [lia|]. intros Hr.
        apply Hr1 in Hr. congruence.
    - assert (links_have_url (links_of (L w).2 issueKey) url = true) as Hu.
      { rewrite Hl1, links_have_url_app. fold url.
        rewrite link_of_has_url. apply orb_true_r. }
      destruct H2 as [(Hi2 & Hc2 & Hr2 & Hp2)|(Hu2 & _)]; [|congruence].
      rewrite Hc1, Hc2. simpl. split; [lia|]. intros _. by split; [apply Hp2|]. }
  split; [|split; [done|]].
  - intros Hu. destruct H1 as [(Hi1 & Hc1 & Hr1 & Hp1)|(Hu1 & _)]; [|congruence].
    split; [by apply Hp1|done].
  - destruct (Hsecond (L w).2 eq_refl) as [Hlen _].
    destruct (linkPullRequestToIssue_effect pr issueKey (L w).2)
      as (t2 & Ht2 & _).
    fold L in Ht2. rewrite (run_events_eq _ _ _ Ht2) in Hlen.
    unfold bind, run_events. destruct (L w) as [[[]|] w1] eqn:Ew; simpl in *.
    + rewrite Ht2, Ht1, <- (assoc_L (++)), drop_app_length, created_app.
      done.
    + rewrite Ht1, drop_app_length. rewrite length_app in Hlen. lia.
Qed.

Lemma link_reconciler_idempotent_witness :
  let w := example_world "Code Review" [link_of example_pr "IR-123"] in
  let L := part_000.linkPullRequestToIssue example_pr "IR-123" in
  posts (run_events L w) = [] ∧ issues (L w).2 = issues w.
Proof.
  apply (proj1 (link_reconciler_idempotent example_pr "IR-123"
                  (example_world "Code Review" [link_of example_pr "IR-123"]))).
  vm_compute. reflexivity.
Defined.

(** ** The events of the loop body *)

Section pr_events.

Implicit Types w : World.
Implicit Types pr : github.PullRequest.

(** The Link Reconciler emits no advisory diagnostic. *)
Lemma link_reconciler_events pr issueKey title w :
  ∃ t, trace (link_reconciler pr issueKey title w).2 = trace w ++ t
       ∧ Forall (λ e, is_advisory e = false) t.
Proof.
  rewrite link_reconciler_run. destruct w as [ps iss fs t]. simpl.
  destruct fs as [|[] [|[] fs]]; simpl.
  all: try (eexists; split; [done|]; by repeat constructor).
  all: destruct (iss !! issueKey) as [r|]; simpl.
  all: try (eexists; split; [done|]; by repeat constructor).
  all: destruct (links_have_url _ _); simpl.
  all: eexists; split; [done|]; by repeat constructor.
Qed.

(** The events of the loop body for a pull request with a key, when
    the issue is fetched. *)
Lemma main_pr_events pr issueKey w r :
  part_000.keyRegexp_FindStringSubmatch (github.Title pr) = Some issueKey →
  (take_fault w).1 = false →
  issues w !! issueKey = Some r →
  ∃ t, run_events (part_000.main_pr pr) w
       = logged (attention_classifier pr (Some issueKey))
         ++ checking pr issueKey :: Remote (Issue_Get issueKey) None
         :: logged (status_checker pr issueKey
                      (residual_title (github.Title pr) issueKey) (status r))
         ++ t
       ∧ Forall (λ e, is_advisory e = false) t.
Proof.
  intros Hk Hf Hr. unfold run_events. rewrite main_pr_run, Hk. simpl.
  rewrite linkPullRequestToIssue_run, take_fault_log. simpl.
  rewrite Hf, Hr. rewrite log_log.
  match goal with
  | |- context [link_reconciler ?p ?k ?ti ?w0] =>
      destruct (link_reconciler_events p k ti w0) as (t & -> & Ht)
  end.
  exists t. split; [|done]. simpl. rewrite trace_take_fault.
  rewrite <- !(assoc_L (++)). by rewrite drop_app_length.
Qed.

(** The events of the loop body for a pull request without a key. *)
Lemma main_pr_events_no_key pr w :
  part_000.keyRegexp_FindStringSubmatch (github.Title pr) = None →
  part_000.main_pr pr w
  = (Returned tt, log (logged (attention_classifier pr None)) w).
Proof. intros Hk. by rewrite main_pr_run, Hk. Qed.

End pr_events.

(** ** The Status Consistency Checker *)

Section status_facts.

Implicit Types s m d rest title key : string.

Lemma no_W_app s1 s2 : no_W (s1 +:+ s2) = no_W s1 && no_W s2.
Proof.
  induction s1 as [|c s1 IH]; [done|].
  rewrite app_cons. simpl. rewrite IH. by rewrite andb_assoc.
Qed.

Lemma no_W_digits d : all_digits d = true → no_W d = true.
Proof.
  induction d as [|c d IH]; [done|]. simpl.
  intros [Hc Hd]%andb_prop. rewrite (IH Hd), andb_true_r.
  destruct (Ascii.eqb_spec c "W") as [->|]; [discriminate|done].
Qed.

(** Bytes other than ['W'] in front of a string hold no occurrence of
    ["WIP"] and start none. *)
Lemma Contains_WIP_skip m rest :
  no_W m = true →
  strings.Contains (m +:+ rest) "WIP" = strings.Contains rest "WIP".
Proof.
  induction m as [|c m IH]; [done|].
  intros H. simpl in H. apply andb_prop in H as [Hc Hm].
  apply negb_true_iff in Hc. rewrite app_cons.
  change (strings.Contains (String c (m +:+ rest)) "WIP")
    with (if strings.HasPrefix (String c (m +:+ rest)) "WIP" then true
          else strings.Contains (m +:+ rest) "WIP").
  change (strings.HasPrefix (String c (m +:+ rest)) "WIP")
    with (if Ascii.eqb c "W" then strings.HasPrefix (m +:+ rest) "IP"
          else false).
  rewrite Hc. by apply IH.
Qed.

(** Stripping the marker of a key the pattern found does not change
    whether the title contains ["WIP"]. *)
Lemma residual_title_WIP title key :
  part_000.keyRegexp_FindStringSubmatch title = Some key →
  strings.Contains (residual_title title key) "WIP"
  = strings.Contains title "WIP".
Proof.
  intros Hk. unfold part_000.keyRegexp_FindStringSubmatch in Hk.
  rewrite IR_alternatives in Hk.
  apply find_key_Some in Hk as (pre & s & _ & Hm & _).
  apply marker_at_IR in Hm as (d & rest & [_ Hd] & -> & _).
  unfold residual_title.
  destruct (strings.HasPrefix title _) eqn:E; [|done].
  apply HasPrefix_iff in E as [rest' ->]. rewrite slice_from_app.
  symmetry. apply Contains_WIP_skip.
  rewrite !no_W_app, (no_W_digits d Hd). reflexivity.
Qed.

(** The mismatch diagnostics of the checker are those of the table. *)
Lemma status_checker_mismatches pr issueKey title st :
  List.filter is_mismatch (logged (status_checker pr issueKey title st))
  = expected_mismatch (github.State pr) (strings.Contains title "WIP")
      (github.Merged pr) issueKey st.
Proof.
  unfold logged, status_checker, expected_mismatch, bind, klog_V_Infof,
    klog_Warningf, emit, ret.
  destruct (github.Merged pr), (String.eqb st "On QA"),
    (String.eqb st "Done"); simpl;
    repeat case_match; simplify_eq/=; reflexivity.
Qed.

Lemma attention_classifier_mismatches pr match_ :
  List.filter is_mismatch (logged (attention_classifier pr match_)) = [].
Proof.
  unfold logged, attention_classifier, klog_V_Infof, emit, ret.
  repeat case_match; simplify_eq/=; reflexivity.
Qed.

Lemma filter_not_advisory (f : Event → bool) (t : list Event) :
  (∀ e, is_advisory e = false → f e = false) →
  Forall (λ e, is_advisory e = false) t → List.filter f t = [].
Proof.
  intros Hf. induction 1 as [|e t He _ IH]; [done|].
  simpl. by rewrite (Hf e He).
Qed.

End status_facts.

(** C3: for a pull request with a matched key whose issue is fetched, the
    mismatch diagnostics of the run are those of the state table, read
    with the title of the pull request: for an open pull request, a
    mismatch exactly when the status is not ["In Progress"] (title with
    ["WIP"]) or not ["Code Review"] (title without); for a closed and
    merged one, exactly when the status is neither ["On QA"] nor
    ["Done"]; for a closed and unmerged one, never; and at most one
    mismatch diagnostic in all. *)
Theorem status_table (pr : github.PullRequest) (issueKey : string)
    (w : World) (r : IssueRecord) :
  part_000.keyRegexp_FindStringSubmatch (github.Title pr) = Some issueKey →
  (take_fault w).1 = false →
  issues w !! issueKey = Some r →
  let ms := List.filter is_mismatch (run_events (part_000.main_pr pr) w) in
  let wip := strings.Contains (github.Title pr) "WIP" in
  ms = expected_mismatch (github.State pr) wip (github.Merged pr)
         issueKey (status r)
  ∧ length ms ≤ 1
  ∧ (github.State pr = "open" → wip = true →
       (ms ≠ [] ↔ status r ≠ "In Progress"))
  ∧ (github.State pr = "open" → wip = false →
       (ms ≠ [] ↔ status r ≠ "Code Review"))
  ∧ (github.State pr = "closed" → github.Merged pr = true →
       (ms ≠ [] ↔ status r ≠ "On QA" ∧ status r ≠ "Done"))
  ∧ (github.State pr = "closed" → github.Merged pr = false → ms = []).
Proof.
  intros Hk Hf Hr ms wip.
  assert (ms = expected_mismatch (github.State pr) wip (github.Merged pr)
                 issueKey (status r)) as Hms.
  { unfold ms. destruct (main_pr_events pr issueKey w r Hk Hf Hr) as (t & -> & Ht).
    rewrite List.filter_app, attention_classifier_mismatches. simpl.
    rewrite List.filter_app, status_checker_mismatches.
    rewrite (filter_not_advisory is_mismatch t); [|by intros e [[? ?]%orb_false_elim ?]%orb_false_elim|done].
    rewrite (right_id_L [] (++)). by rewrite (residual_title_WIP _ _ Hk). }
  split; [done|]. rewrite Hms. clear Hms ms. unfold expected_mismatch.
  split; [repeat case_match; simpl; lia|].
  split; [|split; [|split]].
  - intros -> ->. simpl.
    destruct (String.eqb_spec (status r) "In Progress"); naive_solver.
  - intros -> ->. simpl.
    destruct (String.eqb_spec (status r) "Code Review"); naive_solver.
  - intros -> ->. simpl.
    destruct (String.eqb_spec (status r) "On QA");
      destruct (String.eqb_spec (status r) "Done");
      intuition (congruence || discriminate).
  - by intros -> ->.
Qed.

Lemma status_table_witness :
  let w := example_world "In Progress" [] in
  let ms := List.filter is_mismatch (run_events (part_000.main_pr example_pr) w) in
  ms = [Infof 1 "%s: got %s, want Code Review" ["IR-123"; "In Progress"]]
  ∧ length ms ≤ 1.
Proof.
  intros w ms.
  destruct (status_table example_pr "IR-123" w
              {| status := "In Progress"; remotelinks := [] |})
    as (H1 & H2 & _); [reflexivity..|].
  split; [exact H1|exact H2].
Defined.

(** ** The hold advisory *)

Section hold_facts.

Implicit Types pr : github.PullRequest.

Lemma pullRequestLabels_map pr :
  part_000.pullRequestLabels pr = map github.Name (github.Labels pr).
Proof.
  unfold part_000.pullRequestLabels.
  assert (∀ l acc, foldl (λ labels label, labels ++ [github.Name label]) acc l
                   = acc ++ map github.Name l) as H.
  { induction l as [|x l IH]; intros acc; simpl.
    - by rewrite (right_id_L [] (++)).
    - by rewrite IH, <- (assoc_L (++)). }
  apply (H _ []).
Qed.

Lemma contains_true labels name :
  part_000.contains labels name = true ↔ name ∈ labels.
Proof.
  induction labels as [|l labels IH]; simpl.
  - split; [done|]. by intros ?%elem_of_nil.
  - rewrite elem_of_cons. destruct (String.eqb_spec l name) as [->|Hne].
    + split; [by left|done].
    + rewrite IH. split; [by right|]. by intros [->|?].
Qed.

Lemma status_checker_holds pr issueKey title st :
  List.filter is_hold_advisory (logged (status_checker pr issueKey title st))
  = if String.eqb (github.State pr) "open"
       && negb (part_000.contains (part_000.pullRequestLabels pr)
                  "do-not-merge/hold")
    then [hold_advisory pr] else [].
Proof.
  unfold logged, status_checker, bind, klog_V_Infof, klog_Warningf, emit, ret.
  repeat case_match; simplify_eq/=; reflexivity.
Qed.

Lemma attention_classifier_holds pr match_ :
  List.filter is_hold_advisory (logged (attention_classifier pr match_)) = [].
Proof.
  unfold logged, attention_classifier, klog_V_Infof, emit, ret.
  repeat case_match; simplify_eq/=; reflexivity.
Qed.

(** The hold advisories of the loop body, for a pull request with a key
    whose issue is fetched. *)
Lemma main_pr_holds pr issueKey w r :
  part_000.keyRegexp_FindStringSubmatch (github.Title pr) = Some issueKey →
  (take_fault w).1 = false →
  issues w !! issueKey = Some r →
  List.filter is_hold_advisory (run_events (part_000.main_pr pr) w)
  = if String.eqb (github.State pr) "open"
       && negb (part_000.contains (part_000.pullRequestLabels pr)
                  "do-not-merge/hold")
    then [hold_advisory pr] else [].
Proof.
  intros Hk Hf Hr.
  destruct (main_pr_events pr issueKey w r Hk Hf Hr) as (t & -> & Ht).
  rewrite List.filter_app, attention_classifier_holds. simpl.
  rewrite List.filter_app, status_checker_holds.
  rewrite (filter_not_advisory is_hold_advisory t);
    [|by intros e [[? ?]%orb_false_elim ?]%orb_false_elim|done].
  by rewrite (right_id_L [] (++)).
Qed.

(** Without a key the loop body emits no hold advisory. *)
Lemma main_pr_holds_no_key pr w :
  part_000.keyRegexp_FindStringSubmatch (github.Title pr) = None →
  List.filter is_hold_advisory (run_events (part_000.main_pr pr) w) = [].
Proof.
  intros Hk. unfold run_events. rewrite (main_pr_events_no_key _ _ Hk).
  simpl. rewrite drop_app_length. apply attention_classifier_holds.
Qed.

End hold_facts.

(** C4 fails as stated: an open pull request without a hold label whose
    title holds no key gets no hold advisory. *)
Lemma hold_advisory_needs_key :
  let pr := {| github.Title := "Fix build"; github.State := "open";
               github.Merged := false; github.Number := 7;
               github.User_Login := "someone";
               github.Base_Repo_FullName := "openshift/origin";
               github.Labels := [] |} in
  github.State pr = "open"
  ∧ part_000.contains (part_000.pullRequestLabels pr) "do-not-merge/hold"
    = false
  ∧ List.filter is_hold_advisory (run_events (part_000.main_pr pr) blank) = [].
Proof. repeat split. Qed.

(** C4, as the code has it: the hold advisory is part of
    [linkPullRequestToIssue].  For an open pull request from whose title
    a key was extracted and whose issue is fetched, the advisory is
    emitted, once, when the pull request has no label
    ["do-not-merge/hold"]; for a pull request from whose title no key
    was extracted, no hold advisory is emitted. *)
Theorem hold_advisory_with_key (pr : github.PullRequest) (w : World) :
  let hs := List.filter is_hold_advisory (run_events (part_000.main_pr pr) w) in
  match part_000.keyRegexp_FindStringSubmatch (github.Title pr) with
  | None => hs = []
  | Some issueKey =>
      ∀ r, (take_fault w).1 = false → issues w !! issueKey = Some r →
           github.State pr = "open" →
           part_000.contains (part_000.pullRequestLabels pr)
             "do-not-merge/hold" = false →
           hs = [hold_advisory pr]
  end.
Proof.
  intros hs. destruct (part_000.keyRegexp_FindStringSubmatch _) as [k|] eqn:Hk.
  - intros r Hf Hr Hs Hl. unfold hs.
    rewrite (main_pr_holds pr k w r Hk Hf Hr), Hs, Hl. reflexivity.
  - by apply main_pr_holds_no_key.
Qed.

Lemma hold_advisory_with_key_witness :
  List.filter is_hold_advisory
    (run_events (part_000.main_pr example_pr) (example_world "Code Review" []))
  = [hold_advisory example_pr].
Proof.
  apply (hold_advisory_with_key example_pr (example_world "Code Review" [])
           {| status := "Code Review"; remotelinks := [] |});
    reflexivity.
Defined.

(** C9: for an open pull request with a key whose issue is fetched, the
    hold advisory is absent exactly when some label of the pull request
    is named ["do-not-merge/hold"]. *)
Theorem hold_label_exact (pr : github.PullRequest) (issueKey : string)
    (w : World) (r : IssueRecord) :
  part_000.keyRegexp_FindStringSubmatch (github.Title pr) = Some issueKey →
  (take_fault w).1 = false →
  issues w !! issueKey = Some r →
  github.State pr = "open" →
  let hs := List.filter is_hold_advisory (run_events (part_000.main_pr pr) w) in
  (hs = [] ↔ ∃ label, label ∈ github.Labels pr
                      ∧ github.Name label = "do-not-merge/hold")
  ∧ (hs ≠ [] → hs = [hold_advisory pr]).
Proof.
  intros Hk Hf Hr Hs hs. unfold hs.
  rewrite (main_pr_holds pr issueKey w r Hk Hf Hr), Hs. simpl.
  destruct (part_000.contains _ _) eqn:E; simpl.
  - split; [|done]. split; [intros _|done].
    apply contains_true in E. rewrite pullRequestLabels_map in E.
    apply list_elem_of_fmap in E as (label & ? & ?). by exists label.
  - split; [|done]. split; [done|]. intros (label & Hin & Hn).
    assert (part_000.contains (part_000.pullRequestLabels pr)
              "do-not-merge/hold" = true) as E'; [|congruence].
    apply contains_true. rewrite pullRequestLabels_map, <- Hn.
    by apply list_elem_of_fmap_2.
Qed.

(** Labels named ["hold"] or ["do-not-merge/holder"] do not suppress the
    advisory. *)
Lemma hold_label_exact_witness :
  let pr := {| github.Title := "IR-123: Fix registry pruning";
               github.State := "open"; github.Merged := false;
               github.Number := 42; github.User_Login := "dmage";
               github.Base_Repo_FullName := "openshift/image-registry";
               github.Labels := [ {| github.Name := "hold" |};
                                  {| github.Name := "do-not-merge/holder" |} ]
            |} in
  List.filter is_hold_advisory
    (run_events (part_000.main_pr pr) (example_world "Code Review" []))
  = [hold_advisory pr].
Proof.
  intros pr.
  apply (hold_label_exact pr "IR-123" (example_world "Code Review" [])
           {| status := "Code Review"; remotelinks := [] |});
    [reflexivity..|].
  intros H.
  apply (hold_label_exact pr "IR-123" (example_world "Code Review" [])
           {| status := "Code Review"; remotelinks := [] |}) in H;
    [|reflexivity..].
  destruct H as (label & Hin & Hn).
  repeat (apply elem_of_cons in Hin as [->|Hin]; [discriminate|]).
  by apply elem_of_nil in Hin.
Defined.

(** ** The Attention Classifier *)

Section attention_facts.

Implicit Types pr : github.PullRequest.

Lemma status_checker_attentions pr issueKey title st :
  List.filter is_attention (logged (status_checker pr issueKey title st))
  = [].
Proof.
  unfold logged, status_checker, bind, klog_V_Infof, klog_Warningf, emit, ret.
  repeat case_match; simplify_eq/=; reflexivity.
Qed.

(** [linkPullRequestToIssue] emits no classifier diagnostic. *)
Lemma linkPullRequestToIssue_attentions pr issueKey w :
  ∃ t, trace (part_000.linkPullRequestToIssue pr issueKey w).2
       = trace w ++ t
       ∧ List.filter is_attention t = [].
Proof.
  rewrite linkPullRequestToIssue_run. simpl.
  destruct (take_fault w) as [[] w1] eqn:Ef.
  - exists [checking pr issueKey;
            Remote (Issue_Get issueKey) (Some ErrTransport);
            Fatal ErrTransport].
    split; [|done]. simpl. by rewrite <- (trace_take_fault w), Ef.
  - simpl. destruct (issues w !! issueKey) as [r|].
    + match goal with
      | |- context [link_reconciler ?p ?k ?ti ?w0] =>
          destruct (link_reconciler_events p k ti w0) as (t & -> & Ht)
      end.
      eexists. split.
      * simpl. rewrite <- (assoc_L (++)).
        by rewrite <- (trace_take_fault w), Ef.
      * simpl. rewrite List.filter_app, status_checker_attentions.
        apply (filter_not_advisory is_attention t); [|done].
        by intros e [? ?]%orb_false_elim.
    + exists [checking pr issueKey;
              Remote (Issue_Get issueKey) (Some ErrNotFound);
              Fatal ErrNotFound].
      split; [|done]. simpl. by rewrite <- (trace_take_fault w), Ef.
Qed.

End attention_facts.

(** C5: the classifier diagnostics of the loop body.  For an open pull
    request whose author is in the team or whose repository is a team
    repository, and whose title does not contain ["WIP"], exactly one:
    "unassigned" without a key and without a bug marker, "awaiting review
    (bugfix)" without a key and with a bug marker, "awaiting review
    (feature)" with a key.  For any other pull request, none. *)
Theorem attention_classifier_table (pr : github.PullRequest) (w : World) :
  let title := github.Title pr in
  let tracked :=
    map_index part_000.team (github.User_Login pr)
    || map_index part_000.teamRepos (github.Base_Repo_FullName pr) in
  List.filter is_attention (run_events (part_000.main_pr pr) w)
  = if String.eqb (github.State pr) "open" && tracked
       && negb (strings.Contains title "WIP")
    then
      match part_000.keyRegexp_FindStringSubmatch title with
      | Some _ => [attention_event pr AwaitingFeature]
      | None =>
          if part_000.bugRegexp_MatchString title
          then [attention_event pr AwaitingBugfix]
          else [attention_event pr Unassigned]
      end
    else [].
Proof.
  intros title tracked.
  assert (∀ match_,
    List.filter is_attention (logged (attention_classifier pr match_))
    = if String.eqb (github.State pr) "open" && tracked
         && negb (strings.Contains title "WIP")
      then
        match match_ with
        | Some _ => [attention_event pr AwaitingFeature]
        | None =>
            if part_000.bugRegexp_MatchString title
            then [attention_event pr AwaitingBugfix]
            else [attention_event pr Unassigned]
        end
      else []) as Hcls.
  { intros match_.
    unfold logged, attention_classifier, klog_V_Infof, emit, ret.
    fold title tracked.
    destruct (String.eqb (github.State pr) "open"), tracked,
      (strings.Contains title "WIP"), match_,
      (part_000.bugRegexp_MatchString title); reflexivity. }
  assert (∃ t, trace (part_000.main_pr pr w).2
               = trace w ++ logged (attention_classifier pr
                   (part_000.keyRegexp_FindStringSubmatch title)) ++ t
               ∧ List.filter is_attention t = []) as (t & Ht & Hnone).
  { rewrite main_pr_run. fold title.
    destruct (part_000.keyRegexp_FindStringSubmatch title) as [k|]; simpl.
    - destruct (linkPullRequestToIssue_attentions pr k
                  (log (logged (attention_classifier pr (Some k))) w))
        as (t & -> & Ht).
      exists t. simpl. by rewrite <- (assoc_L (++)).
    - exists []. by rewrite (right_id_L [] (++)). }
  rewrite (run_events_eq _ _ _ Ht), List.filter_app, Hnone, Hcls.
  by rewrite (right_id_L [] (++)).
Qed.

(** The example of the specification: an open pull request of a team
    member, without ["WIP"], key or bug marker, is reported unassigned. *)
Example attention_unassigned :
  let pr := {| github.Title := "Fix build"; github.State := "open";
               github.Merged := false; github.Number := 7;
               github.User_Login := "dmage";
               github.Base_Repo_FullName := "openshift/origin";
               github.Labels := [] |} in
  run_events (part_000.main_pr pr) blank = [attention_event pr Unassigned].
Proof. reflexivity. Qed.

(** ** The link the Link Reconciler creates *)

Section created_link.

Variables (pr : github.PullRequest) (issueKey : string).

Lemma post_of_pr_logs t :
  Forall (λ e, is_log e = true) t → Forall (post_of_pr pr issueKey) t.
Proof. intros H. eapply Forall_impl; [exact H|]. by intros [| | |]. Qed.

Lemma linkPullRequestToIssue_posts w :
  ∃ t, trace (part_000.linkPullRequestToIssue pr issueKey w).2 = trace w ++ t
       ∧ Forall (post_of_pr pr issueKey) t.
Proof.
  rewrite linkPullRequestToIssue_run.
  destruct w as [ps iss fs t]. simpl.
  destruct fs as [|[] [|[] [|[] fs]]]; simpl.
  all: destruct (iss !! issueKey) as [r|] eqn:E.
  all: try pose proof (post_of_pr_logs _ (status_checker_logs pr issueKey
                     (residual_title (github.Title pr) issueKey) (status r)))
         as Hsev.
  all: try (set (sev := logged _) in *; clearbody sev).
  all: rewrite ?link_reconciler_run; simpl; rewrite ?E.
  all: try destruct (links_have_url (remotelinks r)
                       (part_000.pullRequestLink pr)) eqn:Eu.
  all: eexists; (split;
         [unfold log, set_issues; simpl;
          rewrite <- ?(assoc_L (++)); simpl; reflexivity|]).
  all: unfold checking.
  all: repeat first
         [ apply Forall_nil
         | apply Forall_cons; split; [by simpl|]
         | apply Forall_app; split; [done|] ].
  all: done.
Qed.

End created_link.

(** C6: a creation request of [linkPullRequestToIssue] carries the URL
    ["https://github.com/<owner>/<repo>/pull/<number>"], the title
    ["<owner>/<repo>#<number>: <residual title>"] and the GitHub favicon
    as icon, the residual title being the title of the pull request
    without its leading ["<key>: "] when it starts with it and the
    unmodified title otherwise. *)
Theorem created_link_fields (pr : github.PullRequest) (issueKey : string)
    (w : World) (path : string) (body : jira.RemoteLink)
    (err : option error) :
  Remote (POST path body) err
    ∈ run_events (part_000.linkPullRequestToIssue pr issueKey) w →
  let repo := github.Base_Repo_FullName pr in
  let number := fmt_d (github.Number pr) in
  let residual := residual_title (github.Title pr) issueKey in
  jira.URL (jira.Object body)
    = "https://github.com/" +:+ repo +:+ "/pull/" +:+ number
  ∧ jira.Title (jira.Object body)
    = repo +:+ "#" +:+ number +:+ ": " +:+ residual
  ∧ jira.Icon (jira.Object body)
    = {| jira.Url16x16 := "https://github.com/favicon.ico";
         jira.IconTitle := "GitHub" |}
  ∧ (∀ rest, github.Title pr = issueKey +:+ ": " +:+ rest → residual = rest)
  ∧ ((∀ rest, github.Title pr ≠ issueKey +:+ ": " +:+ rest) →
       residual = github.Title pr).
Proof.
  intros Hin repo number residual.
  destruct (linkPullRequestToIssue_posts pr issueKey w) as (t & Ht & Hposts).
  rewrite (run_events_eq _ _ _ Ht) in Hin.
  rewrite Forall_forall in Hposts. destruct (Hposts _ Hin) as [_ ->].
  split; [done|]. split.
  { simpl. unfold part_000.pullRequestLinkTitle. fold repo number residual.
    by rewrite !app_assoc'. }
  split; [done|]. split.
  - intros rest E. unfold residual. rewrite E. apply residual_title_marker.
  - apply residual_title_other.
Qed.

Lemma created_link_fields_witness :
  let body := link_of example_pr "IR-123" in
  jira.URL (jira.Object body)
    = "https://github.com/openshift/image-registry/pull/42"
  ∧ jira.Title (jira.Object body)
    = "openshift/image-registry#42: Fix registry pruning".
Proof.
  intros body.
  destruct (created_link_fields example_pr "IR-123"
              (example_world "Code Review" [])
              "rest/api/2/issue/IR-123/remotelink" body None)
    as (HU & HT & _ & Hres & _).
  { apply list_elem_of_In. vm_compute. tauto. }
  split.
  - exact HU.
  - rewrite HT. by rewrite (Hres "Fix registry pruning" eq_refl).
Defined.

(** ** Pull requests without a key *)

Lemma attention_classifier_attentions pr match_ :
  Forall (λ e, is_attention e = true) (logged (attention_classifier pr match_)).
Proof.
  unfold logged, attention_classifier, klog_V_Infof, emit, ret.
  repeat case_match; simplify_eq/=; repeat constructor.
Qed.

(** C8: for a pull request whose title yields no key, the loop body is
    the Attention Classifier alone: it returns, every event of it is a
    classifier diagnostic (in particular [linkPullRequestToIssue] is not
    entered and no call to the Jira server is made), and the issues are
    left as they are, whether or not the title has the bug marker. *)
Theorem no_key_no_link (pr : github.PullRequest) (w : World) :
  part_000.keyRegexp_FindStringSubmatch (github.Title pr) = None →
  let t := run_events (part_000.main_pr pr) w in
  part_000.main_pr pr w = attention_classifier pr None w
  ∧ (part_000.main_pr pr w).1 = Returned tt
  ∧ issues (part_000.main_pr pr w).2 = issues w
  ∧ Forall (λ e, is_attention e = true) t
  ∧ List.filter is_jira_call t = []
  ∧ (∀ issueKey, checking pr issueKey ∉ t).
Proof.
  intros Hk t.
  assert (t = logged (attention_classifier pr None)) as Ht.
  { unfold t, run_events. rewrite (main_pr_events_no_key _ _ Hk). simpl.
    apply drop_app_length. }
  pose proof (attention_classifier_attentions pr None) as Hatt.
  rewrite Ht, (main_pr_events_no_key _ _ Hk), attention_classifier_run.
  repeat split; try done.
  - apply (filter_logs is_jira_call); [by intros []|].
    apply attention_classifier_logs.
  - intros issueKey Hin. rewrite Forall_forall in Hatt.
    by specialize (Hatt _ Hin).
Qed.

Lemma no_key_no_link_witness :
  let pr := {| github.Title := "Bug 9001: fix crash"; github.State := "open";
               github.Merged := false; github.Number := 7;
               github.User_Login := "dmage";
               github.Base_Repo_FullName := "openshift/origin";
               github.Labels := [] |} in
  part_000.bugRegexp_MatchString (github.Title pr) = true
  ∧ run_events (part_000.main_pr pr) blank = [attention_event pr AwaitingBugfix]
  ∧ List.filter is_jira_call (run_events (part_000.main_pr pr) blank) = [].
Proof.
  intros pr. split; [reflexivity|]. split; [reflexivity|].
  apply (no_key_no_link pr blank). reflexivity.
Defined.

(** ** The error discipline *)

Section discipline.

Implicit Types w : World.
Implicit Types t : list Event.

Lemma satisfies_bind {A B} (m : M A) (f : A → M B)
    (Q1 : list Event → Outcome A → Prop)
    (Q2 Q : list Event → Outcome B → Prop) :
  satisfies m Q1 →
  (∀ a, satisfies (f a) Q2) →
  (∀ t1 a t2 o, Q1 t1 (Returned a) → Q2 t2 o → Q (t1 ++ t2) o) →
  (∀ t1, Q1 t1 Exited → Q t1 Exited) →
  satisfies (bind m f) Q.
Proof.
  intros Hm Hf Hret Hexit w. unfold bind.
  destruct (Hm w) as (t1 & Ht1 & HQ1).
  destruct (m w) as [[a|] w1]; simpl in *.
  - destruct (Hf a w1) as (t2 & Ht2 & HQ2).
    exists (t1 ++ t2). split; [by rewrite Ht2, Ht1, (assoc_L (++))|].
    by eapply Hret.
  - exists t1. split; [done|]. by apply Hexit.
Qed.

Lemma disciplined_app {A B} t1 t2 (a : A) (o : Outcome B) :
  disciplined t1 (Returned a) → disciplined t2 o → disciplined (t1 ++ t2) o.
Proof.
  unfold disciplined. intros H1 H2. destruct o as [b|].
  - by apply Forall_app.
  - destruct H2 as (s & req & err & -> & Hs).
    exists (t1 ++ s), req, err. split; [by rewrite (assoc_L (++))|].
    by apply Forall_app.
Qed.

Lemma disciplined_bind {A B} (m : M A) (f : A → M B) :
  satisfies m disciplined → (∀ a, satisfies (f a) disciplined) →
  satisfies (bind m f) disciplined.
Proof.
  intros Hm Hf. apply (satisfies_bind m f disciplined disciplined); try done.
  intros t1 a t2 o. apply disciplined_app.
Qed.

Lemma disciplined_ret {A} (a : A) : satisfies (ret a) disciplined.
Proof.
  intros w. exists []. split; [by rewrite (right_id_L [] (++))|].
  by apply Forall_nil.
Qed.

Lemma disciplined_emit e : is_log e = true → satisfies (emit e) disciplined.
Proof.
  intros He w. exists [e]. split; [done|]. simpl.
  apply Forall_cons. split; [by destruct e|]. by apply Forall_nil.
Qed.

(** A computation that only logs. *)
Lemma disciplined_logs (m : M unit) es :
  (∀ w, m w = (Returned tt, log es w)) →
  Forall (λ e, is_log e = true) es →
  satisfies m disciplined.
Proof.
  intros Hm Hes w. exists es. rewrite Hm. split; [done|]. simpl.
  eapply Forall_impl; [exact Hes|]. by intros [| | |].
Qed.

(** A remote call whose error is passed to [klog.Fatal]. *)
Lemma disciplined_call {A B} req (serve : World → Result (A * World))
    (k : A → M B) :
  (∀ w a w', serve w = Ok (a, w') → trace w' = trace w) →
  (∀ a, satisfies (k a) disciplined) →
  satisfies (r ← remote_call req serve;
             match r with
             | Err err => klog_Fatal err
             | Ok a => k a
             end) disciplined.
Proof.
  intros Hserve Hk w. unfold bind, remote_call.
  pose proof (trace_take_fault w) as Hw1.
  destruct (take_fault w) as [[] w1]; simpl in *.
  - exists [Remote req (Some ErrTransport); Fatal ErrTransport].
    split; [by rewrite <- (assoc_L (++)), Hw1|].
    exists [], req, ErrTransport. split; [done|]. by apply Forall_nil.
  - destruct (serve w1) as [[a w2]|e] eqn:Es; simpl.
    + destruct (Hk a (record (Remote req None) w2)) as (t & Ht & HQ).
      exists (Remote req None :: t). split.
      * rewrite Ht. simpl. rewrite (Hserve _ _ _ Es), Hw1.
        by rewrite <- (assoc_L (++)).
      * apply (disciplined_app [Remote req None] t tt); [|done].
        simpl. apply Forall_cons. split; [done|]. by apply Forall_nil.
    + exists [Remote req (Some e); Fatal e].
      split; [by rewrite <- (assoc_L (++)), Hw1|].
      exists [], req, e. split; [done|]. by apply Forall_nil.
Qed.

Lemma disciplined_for_range {A} (l : list A) (body : A → M unit) :
  (∀ x, satisfies (body x) disciplined) →
  satisfies (for_range l body) disciplined.
Proof.
  intros Hbody. induction l as [|x l IH]; simpl.
  - apply disciplined_ret.
  - apply disciplined_bind; [apply Hbody|]. by intros _.
Qed.

Lemma link_reconciler_disciplined pr issueKey title :
  satisfies (link_reconciler pr issueKey title) disciplined.
Proof.
  unfold link_reconciler, jiraClient_Issue_GetRemoteLinks.
  apply disciplined_call.
  { intros w a w' Hs. destruct (issues w !! issueKey); by simplify_eq. }
  intros links. apply disciplined_bind.
  - intros w. rewrite scan_links. destruct (links_have_url _ _).
    + eexists. split; [done|]. simpl. by repeat constructor.
    + exists []. split; [by rewrite (right_id_L [] (++))|]. by apply Forall_nil.
  - intros [|]; [apply disciplined_ret|].
    apply disciplined_bind; [by apply disciplined_emit|]. intros _.
    unfold jiraClient_POST_remotelink. apply disciplined_call.
    + intros w a w' Hs. destruct (issues w !! issueKey); by simplify_eq.
    + intros _. apply disciplined_ret.
Qed.

Lemma linkPullRequestToIssue_disciplined pr issueKey :
  satisfies (part_000.linkPullRequestToIssue pr issueKey) disciplined.
Proof.
  rewrite linkPullRequestToIssue_parts.
  apply disciplined_bind; [by apply disciplined_emit|]. intros _.
  unfold jiraClient_Issue_Get. apply disciplined_call.
  { intros w a w' Hs. destruct (issues w !! issueKey); by simplify_eq. }
  intros issue. apply disciplined_bind.
  - eapply disciplined_logs; [apply status_checker_run|].
    apply status_checker_logs.
  - intros _. apply link_reconciler_disciplined.
Qed.

Lemma main_pr_disciplined pr : satisfies (part_000.main_pr pr) disciplined.
Proof.
  rewrite main_pr_parts. apply disciplined_bind.
  - eapply disciplined_logs; [apply attention_classifier_run|].
    apply attention_classifier_logs.
  - intros _. destruct (part_000.keyRegexp_FindStringSubmatch _).
    + apply linkPullRequestToIssue_disciplined.
    + apply disciplined_ret.
Qed.

Lemma main_repo_disciplined repo :
  satisfies (part_000.main_repo repo) disciplined.
Proof.
  unfold part_000.main_repo.
  apply disciplined_bind; [by apply disciplined_emit|]. intros _.
  unfold githubClient_PullRequests_List. apply disciplined_call.
  { intros w a w' Hs. destruct (pulls w !! _); by simplify_eq. }
  intros prs. apply disciplined_for_range, main_pr_disciplined.
Qed.

Lemma main_disciplined : satisfies part_000.main disciplined.
Proof. apply disciplined_for_range, main_repo_disciplined. Qed.

End discipline.

Section discipline_consequences.

Implicit Types t s u v : list Event.

Lemma clean_no_failure t t1 e t2 :
  Forall (λ e, is_failure e = false) t → t = t1 ++ e :: t2 →
  is_failure e = false.
Proof.
  intros Ht ->. apply Forall_app in Ht as [_ Ht].
  by apply Forall_cons in Ht as [He _].
Qed.

(** Where a failure can stand in the trace of a run that exits. *)
Lemma failure_position s x y u z v :
  Forall (λ e, is_failure e = false) s →
  s ++ [x; y] = u ++ z :: v → is_failure z = true →
  (u = s ∧ z = x ∧ v = [y]) ∨ (u = s ++ [x] ∧ z = y ∧ v = []).
Proof.
  intros Hs. revert u. induction Hs as [|a s Ha Hs IH]; intros u E Hz.
  - destruct u as [|a [|b u]]; simplify_eq/=; [by left|by right|].
    by destruct u.
  - destruct u as [|a' u]; simplify_eq/=; [congruence|].
    destruct (IH u) as [(-> & -> & ->)|(-> & -> & ->)]; [done..|by left|by right].
Qed.

End discipline_consequences.

(** C7: in a run of [main], a remote call that fails, whichever it is,
    is followed by the fatal log of its error and by nothing else, and
    the run exits; a run exits only in this way.  So an advisory
    diagnostic is a log line below the fatal level, the run never exits
    at it, and a run whose last event it is has returned. *)
Theorem remote_errors_fatal_advisories_not (w : World) :
  let o := (part_000.main w).1 in
  let t := run_events part_000.main w in
  (∀ t1 req err t2, t = t1 ++ Remote req (Some err) :: t2 →
     o = Exited ∧ t2 = [Fatal err])
  ∧ (o = Exited ↔ ∃ t1 req err, t = t1 ++ [Remote req (Some err); Fatal err])
  ∧ (∀ t1 e t2, t = t1 ++ e :: t2 → is_advisory e = true →
       is_log e = true
       ∧ (t2 = [] → o = Returned tt)
       ∧ (∀ err t3, t2 ≠ Fatal err :: t3)).
Proof.
  intros o t. destruct (main_disciplined w) as (t' & Ht & Hd).
  fold o in Hd. unfold t. rewrite (run_events_eq _ _ _ Ht). clear t Ht.
  assert (∀ e, is_advisory e = true → is_log e = true ∧ is_failure e = false)
    as Hadv by (by intros [| | |]).
  destruct o as [[]|]; simpl in Hd.
  - split; [|split].
    + intros t1 req err t2 E.
      by pose proof (clean_no_failure _ _ _ _ Hd E).
    + split; [done|]. intros (t1 & req & err & E).
      by pose proof (clean_no_failure _ _ _ _ Hd E).
    + intros t1 e t2 E He. split; [by apply Hadv|]. split; [done|].
      intros err t3 ->.
      by pose proof (clean_no_failure _ (t1 ++ [e]) (Fatal err) t3 Hd
                       ltac:(by rewrite <- (assoc_L (++)))).
  - destruct Hd as (s & req0 & err0 & -> & Hs). split; [|split].
    + intros t1 req err t2 E.
      destruct (failure_position _ _ _ _ _ _ Hs E eq_refl)
        as [(-> & [= -> ->] & ->)|(_ & [=] & _)].
      done.
    + split; [|done]. intros _. by exists s, req0, err0.
    + intros t1 e t2 E He. destruct (Hadv e He) as [Hl Hf].
      split; [done|]. split.
      * intros ->.
        change (s ++ [Remote req0 (Some err0); Fatal err0])
          with (s ++ [Remote req0 (Some err0)] ++ [Fatal err0]) in E.
        rewrite (assoc_L (++)) in E.
        apply app_inj_tail in E as [_ <-]. done.
      * intros err t3 ->.
        assert (s ++ [Remote req0 (Some err0); Fatal err0]
                = (t1 ++ [e]) ++ Fatal err :: t3) as E'
          by (by rewrite <- (assoc_L (++))).
        destruct (failure_position _ _ _ _ _ _ Hs E' eq_refl)
          as [(_ & [=] & _)|(E2 & _)].
        apply app_inj_tail in E2 as [_ ->]. done.
Qed.

Lemma remote_errors_fatal_advisories_not_witness :
  let w := {| pulls := {[ ("openshift", "api") := [example_pr] ]};
              issues := ∅; faults := []; trace := [] |} in
  (part_000.main w).1 = Exited.
Proof.
  intros w.
  apply (proj1 (remote_errors_fatal_advisories_not w)
           [ Infof 2 "Analyzing github repository %s/%s..." ["openshift"; "api"];
             Remote (PullRequests_List "openshift" "api") None;
             attention_event example_pr AwaitingFeature;
             checking example_pr "IR-123" ]
           (Issue_Get "IR-123") ErrNotFound [Fatal ErrNotFound]).
  vm_compute. reflexivity.
Defined.

(** ** The two versions *)

Section versions.

Variables (pr : github.PullRequest) (issueKey title : string).

(** The Link Reconciler does not read the trace. *)
Lemma link_reconciler_frame w :
  ∃ o i f t, ∀ es,
    link_reconciler pr issueKey title (log es w)
    = (o, {| pulls := pulls w; issues := i; faults := f;
             trace := trace w ++ es ++ t |}).
Proof.
  destruct w as [ps iss fs t0].
  destruct fs as [|[] [|[] fs]]; destruct (iss !! issueKey) as [r|] eqn:E;
    try destruct (links_have_url (remotelinks r)
                    (part_000.pullRequestLink pr)) eqn:Eu.
  all: do 4 eexists; intros es; rewrite link_reconciler_run; simpl;
         rewrite ?E, ?Eu; simpl; unfold log, set_issues; simpl;
         rewrite <- ?(assoc_L (++)); reflexivity.
Qed.

End versions.

(** What the earlier version of [linkPullRequestToIssue] does. *)
Lemma main_go_linkPullRequestToIssue_run pr issueKey w :
  main_go.linkPullRequestToIssue pr issueKey w
  = link_reconciler pr issueKey (residual_title (github.Title pr) issueKey)
      (log [checking pr issueKey] w).
Proof. by rewrite main_go_linkPullRequestToIssue_parts. Qed.

(** C10: the two versions of [linkPullRequestToIssue] agree on linking.
    Run from the same world, the later version with an issue fetch that
    meets no transport failure, they end with the same outcome and the
    same issues on the server and issue the same creation requests (none,
    or one with the same path and the same link: URL, title and icon);
    when the server knows the issue they make the same calls for the
    links, with the same results, and leave the same faults. *)
Theorem versions_agree_on_linking (pr : github.PullRequest)
    (issueKey : string) (w : World) :
  let old := main_go.linkPullRequestToIssue pr issueKey in
  let new := part_000.linkPullRequestToIssue pr issueKey in
  let w' := with_fault false w in
  (old w).1 = (new w').1
  ∧ issues (old w).2 = issues (new w').2
  ∧ posts (run_events old w) = posts (run_events new w')
  ∧ (is_Some (issues w !! issueKey) →
       List.filter is_link_call (run_events old w)
       = List.filter is_link_call (run_events new w')
       ∧ faults (old w).2 = faults (new w').2).
Proof.
  intros old new w'. unfold old, new, w', run_events.
  rewrite main_go_linkPullRequestToIssue_run.
  rewrite linkPullRequestToIssue_run, take_fault_with_fault. simpl.
  destruct (issues w !! issueKey) as [r|] eqn:E.
  - destruct (link_reconciler_frame pr issueKey
                (residual_title (github.Title pr) issueKey) w)
      as (o & i & f & t & Hrun).
    rewrite !Hrun. simpl. rewrite !drop_app_length. simpl.
    pose proof (status_checker_logs pr issueKey
                  (residual_title (github.Title pr) issueKey) (status r))
      as Hsev.
    set (sev := logged _) in *. clearbody sev.
    rewrite posts_app, !List.filter_app, (posts_logs _ Hsev).
    rewrite (filter_logs is_link_call sev); [|by intros []|done].
    by repeat split.
  - rewrite link_reconciler_run. simpl. rewrite E.
    destruct w as [ps iss [|[] fs] t]; simpl;
      rewrite <- ?(assoc_L (++)), !drop_app_length; unfold posts; simpl;
      (split; [done|split; [done|split; [done|by intros [? ?]]]]).
Qed.

Lemma versions_agree_on_linking_witness :
  let w := example_world "Code Review" [] in
  created (run_events (main_go.linkPullRequestToIssue example_pr "IR-123") w)
  = [link_of example_pr "IR-123"]
  ∧ List.filter is_link_call
      (run_events (main_go.linkPullRequestToIssue example_pr "IR-123") w)
    = List.filter is_link_call
        (run_events (part_000.linkPullRequestToIssue example_pr "IR-123")
           (with_fault false w)).
Proof.
  intros w. split; [reflexivity|].
  apply (versions_agree_on_linking example_pr "IR-123" w).
  by eexists.
Defined.

(** * Further properties of the code *)

(** ** Start-up *)

Lemma getEnv_Started env name value :
  getEnv env name = Started value ↔ env !! name = Some value ∧ value ≠ "".
Proof.
  unfold getEnv, os_Getenv.
  destruct (env !! name) as [v|]; simpl.
  - destruct (String.eqb_spec v "") as [->|Hne].
    + split; [done|]. by intros [[= <-] ?].
    + split; [by intros [= <-]|]. by intros [[= <-] _].
  - split; [done|]. by intros [? _].
Qed.

Lemma getEnv_Exitf env name format args :
  getEnv env name = Exitf format args →
  ¬ is_set env name
  ∧ format = "The environment variable %s is not set or empty. Please set it and try again."
  ∧ args = [name].
Proof.
  unfold getEnv, os_Getenv, is_set.
  destruct (env !! name) as [v|]; simpl.
  - destruct (String.eqb_spec v "") as [->|Hne]; [|done].
    intros [= <- <-]. split; [|done]. by intros (v & [= <-] & ?).
  - intros [= <- <-]. split; [|done]. by intros (v & ? & _).
Qed.

(** X1: [main] gets past the reading of the environment exactly when
    [JIRA_BASE_URL], [JIRA_USERNAME] and [JIRA_PASSWORD] are all set to
    non-empty values, and then with these values; otherwise it exits
    with the message that names the first of them, in this order, that
    is unset or empty. *)
Theorem main_environment_spec (env : gmap string string) :
  match main_environment env with
  | Started (baseURL, tp) =>
      env !! "JIRA_BASE_URL" = Some baseURL ∧ baseURL ≠ ""
      ∧ env !! "JIRA_USERNAME" = Some (Username tp) ∧ Username tp ≠ ""
      ∧ env !! "JIRA_PASSWORD" = Some (Password tp) ∧ Password tp ≠ ""
  | Exitf format args =>
      format = "The environment variable %s is not set or empty. Please set it and try again."
      ∧ ∃ name before,
          args = [name] ∧ ¬ is_set env name
          ∧ (before, name) ∈ [ ([], "JIRA_BASE_URL");
                                (["JIRA_BASE_URL"], "JIRA_USERNAME");
                                (["JIRA_BASE_URL"; "JIRA_USERNAME"],
                                 "JIRA_PASSWORD") ]
          ∧ Forall (is_set env) before
  end.
Proof.
  unfold main_environment.
  destruct (getEnv env "JIRA_BASE_URL") as [b|f a] eqn:Eb.
  2: { apply getEnv_Exitf in Eb as (Hn & -> & ->). split; [done|].
       exists "JIRA_BASE_URL", []. split; [done|]. split; [done|].
       split; [apply list_elem_of_In; simpl; tauto|]. constructor. }
  apply getEnv_Started in Eb as [Hb Hb'].
  destruct (getEnv env "JIRA_USERNAME") as [u|f a] eqn:Eu.
  2: { apply getEnv_Exitf in Eu as (Hn & -> & ->). split; [done|].
       exists "JIRA_USERNAME", ["JIRA_BASE_URL"].
       split; [done|]. split; [done|].
       split; [apply list_elem_of_In; simpl; tauto|].
       repeat constructor. by exists b. }
  apply getEnv_Started in Eu as [Hu Hu'].
  destruct (getEnv env "JIRA_PASSWORD") as [p|f a] eqn:Ep.
  2: { apply getEnv_Exitf in Ep as (Hn & -> & ->). split; [done|].
       exists "JIRA_PASSWORD", ["JIRA_BASE_URL"; "JIRA_USERNAME"].
       split; [done|]. split; [done|].
       split; [apply list_elem_of_In; simpl; tauto|].
       repeat constructor; [by exists b|by exists u]. }
  apply getEnv_Started in Ep as [Hp Hp']. done.
Qed.

(** ** Strings and patterns *)

Lemma HasPrefix_length s p :
  strings.HasPrefix s p = true → String.length p ≤ String.length s.
Proof.
  revert s. induction p as [|c p IH]; intros [|d s]; simpl; try done; try lia.
  destruct (Ascii.eqb d c); [|done]. intros H%IH. lia.
Qed.

Lemma length_app s1 s2 :
  String.length (s1 +:+ s2) = String.length s1 + String.length s2.
Proof. induction s1 as [|c s1 IH]; [done|]. rewrite app_cons. simpl. by rewrite IH. Qed.

(** X2: the slice [title[len(issueKey+": "):]] of
    [linkPullRequestToIssue] is taken within the bounds of the title,
    whatever the title and the key: the residual title is a suffix of
    the title, the marker followed by it being the title when the marker
    was stripped. *)
Theorem residual_title_in_bounds (title issueKey : string) :
  let marker := issueKey +:+ ": " in
  let residual := residual_title title issueKey in
  if strings.HasPrefix title marker
  then String.length marker ≤ String.length title
       ∧ title = marker +:+ residual
       ∧ String.length residual = String.length title - String.length marker
  else residual = title.
Proof.
  intros marker residual. unfold residual, residual_title. fold marker.
  destruct (strings.HasPrefix title marker) eqn:E; [|done].
  split; [by apply HasPrefix_length|].
  apply HasPrefix_iff in E as [rest ->]. rewrite slice_from_app.
  split; [done|]. rewrite length_app. lia.
Qed.

Lemma match_bug_here_true s :
  regexp.match_bug_here s = true ↔
  ∃ d rest, is_number d ∧ s = "Bug " +:+ d +:+ ": " +:+ rest.
Proof.
  unfold regexp.match_bug_here. split.
  - destruct (regexp.lit "Bug " s) as [r|] eqn:El; [|done].
    apply lit_Some in El as ->.
    destruct (regexp.number_colon r) as [d|] eqn:En; [|done].
    apply number_colon_Some in En as (Hd & rest & ->). intros _.
    by exists d, rest.
  - intros (d & rest & Hd & ->).
    rewrite (proj2 (lit_Some "Bug " _ _) eq_refl).
    by rewrite (proj2 (number_colon_Some _ d) ltac:(eauto)).
Qed.

(** X3: [bugRegexp.MatchString] answers true exactly for the titles that
    hold, anywhere, the text ["Bug "], a non-empty run of digits and
    [": "]. *)
Theorem bugRegexp_MatchString_spec (title : string) :
  part_000.bugRegexp_MatchString title = true ↔
  ∃ pre d rest, is_number d
                ∧ title = pre +:+ "Bug " +:+ d +:+ ": " +:+ rest.
Proof.
  unfold part_000.bugRegexp_MatchString.
  induction title as [|c title IH]; simpl.
  - destruct (regexp.match_bug_here "") eqn:E.
    + apply match_bug_here_true in E as (d & rest & _ & [=]).
    + split; [done|]. intros ([|] & d & rest & _ & [=]).
  - destruct (regexp.match_bug_here (String c title)) eqn:E.
    + split; [intros _|done].
      apply match_bug_here_true in E as (d & rest & Hd & ->).
      by exists "", d, rest.
    + rewrite IH. split.
      * intros (pre & d & rest & Hd & ->).
        exists (String c pre), d, rest. by rewrite app_cons.
      * intros ([|c' pre] & d & rest & Hd & Ht).
        -- rewrite app_empty in Ht.
           assert (regexp.match_bug_here (String c title) = true) as E'
             by (apply match_bug_here_true; by exists d, rest).
           congruence.
        -- rewrite app_cons in Ht. injection Ht as -> ->.
           by exists pre, d, rest.
Qed.

(** ** The URL and the title of a link identify the pull request *)

Section link_names.

Implicit Types s a n : string.

Lemma app_inv_tail s s' t : s +:+ t = s' +:+ t → s = s'.
Proof.
  revert s'. induction s as [|c s IH]; intros [|c' s'] E.
  - done.
  - apply (f_equal String.length) in E. rewrite app_empty, length_app in E.
    simpl in E. lia.
  - apply (f_equal String.length) in E. rewrite app_empty, length_app in E.
    simpl in E. lia.
  - rewrite !app_cons in E. injection E as -> E. f_equal. by apply IH.
Qed.

Lemma without_cons c d s :
  without c (String d s) = negb (Ascii.eqb d c) && without c s.
Proof. reflexivity. Qed.

Lemma without_app c s1 s2 : without c (s1 +:+ s2) = without c s1 && without c s2.
Proof.
  induction s1 as [|d s1 IH]; [done|].
  rewrite app_cons. simpl. by rewrite IH, andb_assoc.
Qed.

(** Two ways to cut a string at a byte that does not occur after the cut
    are the same way. *)
Lemma cut_at_last c a n a' n' :
  without c n = true → without c n' = true →
  a +:+ String c n = a' +:+ String c n' → a = a' ∧ n = n'.
Proof.
  intros Hn Hn'. revert a'. induction a as [|d a IH]; intros [|d' a'] E.
  - rewrite !app_empty in E. by injection E.
  - rewrite app_empty, app_cons in E. injection E as <- ->.
    rewrite without_app in Hn. simpl in Hn. rewrite Ascii.eqb_refl in Hn.
    simpl in Hn. by rewrite andb_false_r in Hn.
  - rewrite app_empty, app_cons in E. injection E as -> <-.
    rewrite without_app in Hn'. simpl in Hn'. rewrite Ascii.eqb_refl in Hn'.
    simpl in Hn'. by rewrite andb_false_r in Hn'.
  - rewrite !app_cons in E. injection E as -> E.
    destruct (IH _ E) as [-> ->]. done.
Qed.

Lemma string_of_uint_without c d :
  regexp.is_digit c = false →
  without c (NilEmpty.string_of_uint d) = true.
Proof.
  intros Hc. induction d as [|d IH|d IH|d IH|d IH|d IH|d IH|d IH|d IH|d IH|d IH];
    simpl NilEmpty.string_of_uint; [done|..];
    rewrite without_cons, IH, andb_true_r;
    match goal with
    | |- negb (Ascii.eqb ?x c) = true =>
        destruct (Ascii.eqb_spec x c) as [<-|]; [discriminate|done]
    end.
Qed.

(** [%d] prints digits, after a minus sign for a negative number. *)
Lemma fmt_d_without c (z : Z) :
  regexp.is_digit c = false → c ≠ "-"%char → without c (fmt_d z) = true.
Proof.
  intros Hc Hm. unfold fmt_d, NilZero.string_of_int.
  assert (∀ d, without c (NilZero.string_of_uint d) = true) as Hu.
  { intros d. unfold NilZero.string_of_uint.
    pose proof (string_of_uint_without c d Hc) as H.
    destruct d; try done. rewrite without_cons. simpl without.
    rewrite andb_true_r.
    destruct (Ascii.eqb_spec "0" c) as [<-|]; [discriminate|done]. }
  destruct (Z.to_int z) as [d|d]; [apply Hu|].
  rewrite without_cons, Hu, andb_true_r.
  destruct (Ascii.eqb_spec "-" c) as [<-|]; done.
Qed.

Lemma fmt_d_inj (z z' : Z) : fmt_d z = fmt_d z' → z = z'.
Proof.
  unfold fmt_d. intros E. apply DecimalZ.to_int_inj.
  assert (∀ z, NilZero.int_of_string (NilZero.string_of_int (Z.to_int z))
               = Some (Z.to_int z)) as H.
  { intros x. apply NilZero.isi; destruct x; simpl; try done;
      intros [= H]; by apply DecimalPos.Unsigned.to_uint_nonnil in H. }
  pose proof (H z) as H1. rewrite E, H in H1. by injection H1.
Qed.

End link_names.

Lemma pullRequestLink_eq (pr1 pr2 : github.PullRequest) :
  part_000.pullRequestLink pr1 = part_000.pullRequestLink pr2 →
  github.Base_Repo_FullName pr1 = github.Base_Repo_FullName pr2
  ∧ github.Number pr1 = github.Number pr2.
Proof.
  unfold part_000.pullRequestLink. intros E.
  apply String.app_inj in E.
  change "/pull/" with ("/pull" +:+ "/") in E.
  rewrite <- !app_assoc' in E. rewrite !(app_assoc' _ "/" (fmt_d _)) in E.
  apply cut_at_last in E as [E1 E2]; try by apply fmt_d_without.
  apply app_inv_tail in E1. by apply fmt_d_inj in E2.
Qed.

(** X4: [pullRequestLink] and [pullRequestLinkTitle] tell pull requests
    apart: two pull requests have the same URL, or the same link title,
    only when they have the same repository full name and the same
    number. *)
Theorem pullRequestLink_inj (pr1 pr2 : github.PullRequest) :
  part_000.pullRequestLink pr1 = part_000.pullRequestLink pr2
  ∨ part_000.pullRequestLinkTitle pr1 = part_000.pullRequestLinkTitle pr2 →
  github.Base_Repo_FullName pr1 = github.Base_Repo_FullName pr2
  ∧ github.Number pr1 = github.Number pr2.
Proof.
  intros [E|E]; [by apply pullRequestLink_eq|].
  unfold part_000.pullRequestLinkTitle in E.
  apply cut_at_last in E as [E1 E2]; try by apply fmt_d_without.
  by apply fmt_d_inj in E2.
Qed.

Lemma pullRequestLink_inj_witness :
  github.Base_Repo_FullName example_pr = "openshift/image-registry"
  ∧ github.Number example_pr = 42%Z.
Proof.
  apply (pullRequestLink_inj example_pr
           {| github.Title := "another title"; github.State := "closed";
              github.Merged := true; github.Number := 42;
              github.User_Login := "someone";
              github.Base_Repo_FullName := "openshift/image-registry";
              github.Labels := [] |}).
  left. reflexivity.
Defined.

(** ** [linkPullRequestToIssue], case by case *)

(** X5: when the fetch of the issue fails, because the transport fails
    or because the server does not know the key,
    [linkPullRequestToIssue] logs the error and exits at once: no status
    or hold diagnostic, no call for the links, no creation request, and
    the issues are left as they are. *)
Theorem issue_fetch_failure (pr : github.PullRequest) (issueKey : string)
    (w : World) :
  (take_fault w).1 = true ∨ issues w !! issueKey = None →
  let err := if (take_fault w).1 then ErrTransport else ErrNotFound in
  (part_000.linkPullRequestToIssue pr issueKey w).1 = Exited
  ∧ run_events (part_000.linkPullRequestToIssue pr issueKey) w
    = [checking pr issueKey; Remote (Issue_Get issueKey) (Some err); Fatal err]
  ∧ issues (part_000.linkPullRequestToIssue pr issueKey w).2 = issues w.
Proof.
  intros H err. unfold run_events, err.
  rewrite linkPullRequestToIssue_run. simpl.
  pose proof (trace_take_fault w) as Ht. pose proof (issues_take_fault w) as Hi.
  destruct (take_fault w) as [[] w1]; simpl in *.
  - rewrite Ht, drop_app_length. by rewrite Hi.
  - destruct H as [|H]; [done|]. rewrite H. simpl.
    rewrite Ht, drop_app_length. by rewrite Hi.
Qed.

Lemma issue_fetch_failure_witness :
  run_events (part_000.linkPullRequestToIssue example_pr "IR-123") blank
  = [checking example_pr "IR-123";
     Remote (Issue_Get "IR-123") (Some ErrNotFound); Fatal ErrNotFound].
Proof.
  apply (issue_fetch_failure example_pr "IR-123" blank). by right.
Defined.

(** X6: for a pull request whose state is neither ["open"] nor
    ["closed"], once the issue is fetched, [linkPullRequestToIssue] logs
    one warning with the URL and the state, emits no status or hold
    diagnostic, and goes on with the Link Reconciler. *)
Theorem unexpected_state (pr : github.PullRequest) (issueKey : string)
    (w : World) (r : IssueRecord) :
  github.State pr ≠ "open" → github.State pr ≠ "closed" →
  (take_fault w).1 = false → issues w !! issueKey = Some r →
  ∃ res t, run_events (part_000.linkPullRequestToIssue pr issueKey) w
           = checking pr issueKey :: Remote (Issue_Get issueKey) None
             :: Warningf "%s: unexpected state %q"
                  [part_000.pullRequestLink pr; github.State pr]
             :: Remote (Issue_GetRemoteLinks issueKey) res :: t
           ∧ Forall (λ e, is_reconciler_event e = true) t.
Proof.
  intros Ho Hc Hf Hr. unfold run_events.
  rewrite linkPullRequestToIssue_run. simpl. rewrite Hf, Hr.
  assert (logged (status_checker pr issueKey
                    (residual_title (github.Title pr) issueKey) (status r))
          = [Warningf "%s: unexpected state %q"
               [part_000.pullRequestLink pr; github.State pr]]) as ->.
  { unfold logged, status_checker.
    destruct (String.eqb_spec (github.State pr) "open"); [done|].
    destruct (String.eqb_spec (github.State pr) "closed"); [done|].
    reflexivity. }
  rewrite link_reconciler_run.
  destruct w as [ps iss fs t0]. simpl in Hr.
  destruct fs as [|[] [|[] [|[] fs]]]; simpl in *; try done; rewrite ?Hr.
  all: try destruct (links_have_url (remotelinks r)
                       (part_000.pullRequestLink pr)); simpl.
  all: rewrite <- ?(assoc_L (++)), drop_app_length; simpl.
  all: do 2 eexists; (split; [reflexivity|]); by repeat constructor.
Qed.

Lemma unexpected_state_witness :
  let pr := {| github.Title := "IR-123: Fix registry pruning";
               github.State := "draft"; github.Merged := false;
               github.Number := 42; github.User_Login := "dmage";
               github.Base_Repo_FullName := "openshift/image-registry";
               github.Labels := [] |} in
  ∃ res t, run_events (part_000.linkPullRequestToIssue pr "IR-123")
             (example_world "Done" [])
           = checking pr "IR-123" :: Remote (Issue_Get "IR-123") None
             :: Warningf "%s: unexpected state %q"
                  [part_000.pullRequestLink pr; "draft"]
             :: Remote (Issue_GetRemoteLinks "IR-123") res :: t.
Proof.
  intros pr.
  destruct (unexpected_state pr "IR-123" (example_world "Done" [])
              {| status := "Done"; remotelinks := [] |})
    as (res & t & Ht & _); [done..|].
  by exists res, t.
Defined.

(** ** What a run leaves on the servers *)

Section growth.

Implicit Types w : World.

Lemma grows_refl w : grows w w.
Proof.
  split; [done|]. intros k. destruct (issues w !! k); by constructor.
Qed.

Lemma grows_trans w1 w2 w3 : grows w1 w2 → grows w2 w3 → grows w1 w3.
Proof.
  intros [Hp1 H1] [Hp2 H2]. split; [congruence|]. intros k.
  specialize (H1 k). specialize (H2 k).
  destruct H1 as [r1 r2 [Hs1 Hl1]|]; inversion H2 as [? r3 [Hs2 Hl2]|];
    simplify_eq; constructor.
  split; [congruence|]. by etrans.
Qed.

(** A step that changes neither server. *)
Lemma grows_same w w' :
  pulls w' = pulls w → issues w' = issues w → grows w w'.
Proof.
  intros Hp Hi. split; [done|]. intros k. rewrite Hi.
  destruct (issues w !! k); by constructor.
Qed.

Lemma growing_ret {A} (a : A) : growing (ret a).
Proof. intros w. apply grows_refl. Qed.

Lemma growing_bind {A B} (m : M A) (f : A → M B) :
  growing m → (∀ a, growing (f a)) → growing (bind m f).
Proof.
  intros Hm Hf w. unfold bind. specialize (Hm w).
  destruct (m w) as [[a|] w1]; simpl in *; [|done].
  eapply grows_trans; [exact Hm|]. apply Hf.
Qed.

Lemma growing_emit e : growing (emit e).
Proof. intros w. by apply grows_same. Qed.

Lemma growing_Fatal {A} err : growing (klog_Fatal (A:=A) err).
Proof. intros w. by apply grows_same. Qed.

Lemma growing_call {A} req (serve : World → Result (A * World)) :
  (∀ w a w', serve w = Ok (a, w') → grows w w') →
  growing (remote_call req serve).
Proof.
  intros Hs w. unfold remote_call.
  pose proof (pulls_take_fault w) as Hp.
  pose proof (issues_take_fault w) as Hi.
  destruct (take_fault w) as [[] w1]; simpl in *.
  - by apply grows_same.
  - destruct (serve w1) as [[a w2]|e] eqn:Es; simpl.
    + apply (grows_trans _ w1); [by apply grows_same|].
      apply (grows_trans _ w2); [by eapply Hs|]. by apply grows_same.
    + by apply grows_same.
Qed.

Lemma growing_for_range {A} (l : list A) (body : A → M unit) :
  (∀ x, growing (body x)) → growing (for_range l body).
Proof.
  intros Hb. induction l as [|x l IH]; simpl; [apply growing_ret|].
  apply growing_bind; [apply Hb|]. by intros _.
Qed.

Lemma growing_logs (m : M unit) es :
  (∀ w, m w = (Returned tt, log es w)) → growing m.
Proof. intros Hm w. rewrite Hm. by apply grows_same. Qed.

Lemma growing_link_reconciler pr issueKey title :
  growing (link_reconciler pr issueKey title).
Proof.
  unfold link_reconciler. apply growing_bind.
  { apply growing_call. intros w a w' Hs.
    destruct (issues w !! issueKey); simplify_eq. apply grows_refl. }
  intros [links|err]; [|apply growing_Fatal].
  apply growing_bind.
  { intros w. rewrite scan_links. destruct (links_have_url _ _);
      by apply grows_same. }
  intros [|]; [apply growing_ret|].
  apply growing_bind; [apply growing_emit|]. intros _.
  apply growing_bind; [|intros [|]; [apply growing_ret|apply growing_Fatal]].
  apply growing_call. intros w [] w' Hs.
  destruct (issues w !! issueKey) as [r|] eqn:E; simplify_eq.
  split; [done|]. intros k. simpl.
  destruct (decide (k = issueKey)) as [->|Hne].
  - rewrite lookup_insert_eq, E. constructor. simpl.
    split; [done|]. by apply prefix_app_r.
  - rewrite lookup_insert_ne by done.
    destruct (issues w !! k); by constructor.
Qed.

Lemma growing_linkPullRequestToIssue pr issueKey :
  growing (part_000.linkPullRequestToIssue pr issueKey).
Proof.
  rewrite linkPullRequestToIssue_parts.
  apply growing_bind; [apply growing_emit|]. intros _.
  apply growing_bind.
  { apply growing_call. intros w a w' Hs.
    destruct (issues w !! issueKey); simplify_eq. apply grows_refl. }
  intros [issue|err]; [|apply growing_Fatal].
  apply growing_bind; [|intros _; apply growing_link_reconciler].
  eapply growing_logs, status_checker_run.
Qed.

Lemma growing_main_pr pr : growing (part_000.main_pr pr).
Proof.
  rewrite main_pr_parts. apply growing_bind.
  - eapply growing_logs, attention_classifier_run.
  - intros _. destruct (part_000.keyRegexp_FindStringSubmatch _).
    + apply growing_linkPullRequestToIssue.
    + apply growing_ret.
Qed.

Lemma growing_main_repo repo : growing (part_000.main_repo repo).
Proof.
  unfold part_000.main_repo.
  apply growing_bind; [apply growing_emit|]. intros _.
  apply growing_bind.
  { apply growing_call. intros w a w' Hs.
    destruct (pulls w !! _); simplify_eq. apply grows_refl. }
  intros [prs|err]; [|apply growing_Fatal].
  apply growing_for_range, growing_main_pr.
Qed.

End growth.

(** X7: a run of [main], however it ends, changes nothing on the GitHub
    server and, on the Jira server, adds no issue, removes none, changes
    no status and removes or changes no link: the links of an issue
    after the run are those before it, followed by the links the run
    created. *)
Theorem main_only_adds_links (w : World) (k : string) :
  let w' := (part_000.main w).2 in
  pulls w' = pulls w
  ∧ match issues w !! k with
    | None => issues w' !! k = None
    | Some r =>
        ∃ added, issues w' !! k
                 = Some {| status := status r;
                           remotelinks := remotelinks r ++ added |}
    end.
Proof.
  intros w'.
  assert (grows w w') as [Hp Hi]
    by apply growing_for_range, growing_main_repo.
  split; [done|]. specialize (Hi k).
  destruct Hi as [r r' [Hs [added Hl]]|]; [|done].
  exists added. destruct r'. simpl in *. by subst.
Qed.

(** ** Running [main] again *)

Section rerun.

Implicit Types w : World.
Implicit Types pr : github.PullRequest.

Lemma grows_has_url w w' k u :
  grows w w' → links_have_url (links_of w k) u = true →
  links_have_url (links_of w' k) u = true.
Proof.
  intros [_ H]. specialize (H k). unfold links_of.
  destruct H as [r r' [_ [added ->]]|]; [|done].
  intros Hu. by rewrite links_have_url_app, Hu.
Qed.

Lemma pr_linked_grows w w' pr : grows w w' → pr_linked w pr → pr_linked w' pr.
Proof. intros Hg Hl k Hk. eapply grows_has_url; [done|]. by apply Hl. Qed.

Lemma pr_linked_issues w w' pr :
  issues w' = issues w → pr_linked w pr → pr_linked w' pr.
Proof. intros Hi Hl k Hk. unfold links_of. rewrite Hi. by apply Hl. Qed.

(** A pull request that [main] has dealt with is linked. *)
Lemma main_pr_links pr w :
  (part_000.main_pr pr w).1 = Returned tt →
  pr_linked (part_000.main_pr pr w).2 pr.
Proof.
  rewrite main_pr_run. simpl. intros Hret k Hk. rewrite Hk in *.
  destruct (linkPullRequestToIssue_effect pr k
              (log (logged (attention_classifier pr (Some k))) w))
    as (t & _ & [(Hi & _ & Hr & _)|(_ & _ & _ & Hl)]).
  - unfold links_of in *. rewrite Hi. by apply Hr.
  - rewrite Hl, links_have_url_app, link_of_has_url. apply orb_true_r.
Qed.

Lemma for_range_main_pr_links prs w :
  (for_range prs part_000.main_pr w).1 = Returned tt →
  Forall (pr_linked (for_range prs part_000.main_pr w).2) prs.
Proof.
  revert w. induction prs as [|pr prs IH]; intros w; simpl; [by constructor|].
  unfold bind. pose proof (main_pr_links pr w) as Hpr.
  destruct (part_000.main_pr pr w) as [[[]|] w1]; simpl in *; [|done].
  intros Hret. constructor; [|by apply IH].
  eapply pr_linked_grows; [|by apply Hpr].
  apply growing_for_range, growing_main_pr.
Qed.

(** What the body of the loop over the repositories does. *)
Lemma main_repo_run repo w :
  part_000.main_repo repo w =
  let analyzing :=
    Infof 2 "Analyzing github repository %s/%s..." [repo.1; repo.2] in
  let list := Remote (PullRequests_List repo.1 repo.2) in
  let w1 := (take_fault w).2 in
  if (take_fault w).1
  then (Exited, log [analyzing; list (Some ErrTransport); Fatal ErrTransport] w1)
  else
    match pulls w !! repo with
    | None =>
        (Exited, log [analyzing; list (Some ErrNotFound); Fatal ErrNotFound] w1)
    | Some prs => for_range prs part_000.main_pr (log [analyzing; list None] w1)
    end.
Proof.
  destruct repo as [owner name], w as [ps iss fs t].
  unfold part_000.main_repo, bind, klog_V_Infof, emit,
    githubClient_PullRequests_List, remote_call, klog_Fatal, record, log,
    take_fault.
  simpl. destruct fs as [|[] fs]; simpl.
  - destruct (ps !! (owner, name)); simpl; by rewrite <- ?(assoc_L (++)).
  - by rewrite <- ?(assoc_L (++)).
  - destruct (ps !! (owner, name)); simpl; by rewrite <- ?(assoc_L (++)).
Qed.

Lemma main_repo_links repo w :
  (part_000.main_repo repo w).1 = Returned tt →
  ∃ prs, pulls w !! repo = Some prs
         ∧ Forall (pr_linked (part_000.main_repo repo w).2) prs.
Proof.
  rewrite main_repo_run. simpl.
  destruct (take_fault w).1; [done|].
  destruct (pulls w !! repo) as [prs|]; [|done].
  intros Hret. exists prs. split; [done|].
  by apply for_range_main_pr_links.
Qed.

Lemma main_links repos w :
  (for_range repos part_000.main_repo w).1 = Returned tt →
  Forall (λ repo, ∃ prs, pulls w !! repo = Some prs
                         ∧ Forall (pr_linked
                                     (for_range repos part_000.main_repo w).2)
                             prs) repos.
Proof.
  revert w. induction repos as [|repo repos IH]; intros w; simpl;
    [by constructor|].
  unfold bind. pose proof (main_repo_links repo w) as Hrepo.
  pose proof (growing_main_repo repo w) as Hg.
  destruct (part_000.main_repo repo w) as [[[]|] w1]; simpl in *; [|done].
  intros Hret. constructor.
  - destruct (Hrepo eq_refl) as (prs & Hprs & Hl). exists prs. split; [done|].
    eapply Forall_impl; [exact Hl|]. intros pr. apply pr_linked_grows.
    apply growing_for_range, growing_main_repo.
  - eapply Forall_impl; [by apply IH|]. intros r (prs & Hprs & Hl).
    exists prs. split; [|done]. destruct Hg as [Hg _]. by rewrite <- Hg.
Qed.

Lemma quiet_ret {A} (a : A) w : quiet (ret a) w.
Proof.
  split; [done|]. split; [done|]. exists []. by rewrite (right_id_L [] (++)).
Qed.

Lemma quiet_bind {A B} (m : M A) (f : A → M B) w :
  quiet m w → (∀ a, (m w).1 = Returned a → quiet (f a) (m w).2) →
  quiet (bind m f) w.
Proof.
  intros (Hi & Hp & t & Ht & Hposts) Hf. unfold bind, quiet.
  destruct (m w) as [[a|] w1]; simpl in *.
  - destruct (Hf a eq_refl) as (Hi' & Hp' & t' & Ht' & Hposts').
    split; [congruence|]. split; [congruence|]. exists (t ++ t').
    split; [by rewrite Ht', Ht, (assoc_L (++))|].
    by rewrite posts_app, Hposts, Hposts'.
  - split; [done|]. split; [done|]. by exists t.
Qed.

Lemma quiet_logs (m : M unit) es w :
  (∀ w, m w = (Returned tt, log es w)) →
  Forall (λ e, is_log e = true) es → quiet m w.
Proof.
  intros Hm Hes. unfold quiet. rewrite Hm. simpl.
  split; [done|]. split; [done|]. exists es. split; [done|].
  by apply posts_logs.
Qed.

(** A pull request that is linked is left alone. *)
Lemma main_pr_quiet pr w : pr_linked w pr → quiet (part_000.main_pr pr) w.
Proof.
  intros Hl. rewrite main_pr_parts. apply quiet_bind.
  { eapply quiet_logs; [apply attention_classifier_run|].
    apply attention_classifier_logs. }
  intros _ _. rewrite attention_classifier_run. simpl.
  set (w1 := log _ w).
  destruct (part_000.keyRegexp_FindStringSubmatch _) as [k|] eqn:Hk;
    [|apply quiet_ret].
  pose proof (growing_linkPullRequestToIssue pr k w1) as [Hp _].
  destruct (linkPullRequestToIssue_effect pr k w1)
    as (t & Ht & [(Hi & _ & _ & Hposts)|(Hu & _)]).
  - split; [done|]. split; [done|]. exists t. split; [done|].
    apply Hposts. by apply Hl.
  - specialize (Hl k Hk). unfold links_of in *. simpl in Hu. congruence.
Qed.

Lemma for_range_main_pr_quiet prs w :
  Forall (pr_linked w) prs → quiet (for_range prs part_000.main_pr) w.
Proof.
  revert w. induction prs as [|pr prs IH]; intros w Hl; simpl;
    [apply quiet_ret|].
  apply Forall_cons in Hl as [Hpr Hprs].
  pose proof (main_pr_quiet pr w Hpr) as Hq.
  apply quiet_bind; [done|]. intros _ _. apply IH.
  eapply Forall_impl; [exact Hprs|]. intros pr'. apply pr_linked_issues.
  by destruct Hq as [-> _].
Qed.

Lemma main_repo_quiet repo w :
  (∀ prs, pulls w !! repo = Some prs → Forall (pr_linked w) prs) →
  quiet (part_000.main_repo repo) w.
Proof.
  intros Hl. unfold quiet. rewrite main_repo_run. simpl.
  pose proof (pulls_take_fault w) as Hp.
  pose proof (issues_take_fault w) as Hi.
  pose proof (trace_take_fault w) as Ht.
  destruct (take_fault w) as [[] w1]; simpl in *.
  { split; [done|]. split; [done|]. eexists. by rewrite Ht. }
  destruct (pulls w !! repo) as [prs|] eqn:Eprs; simpl.
  - match goal with
    | |- context [for_range prs _ ?w0] =>
        destruct (for_range_main_pr_quiet prs w0)
          as (Hi' & Hp' & t & Ht' & Hposts)
    end.
    { eapply Forall_impl; [by apply Hl|]. intros pr.
      by apply pr_linked_issues. }
    simpl in *. split; [congruence|]. split; [congruence|].
    exists ([Infof 2 "Analyzing github repository %s/%s..." [repo.1; repo.2];
             Remote (PullRequests_List repo.1 repo.2) None] ++ t).
    split; [by rewrite Ht', Ht, (assoc_L (++))|].
    by rewrite posts_app, Hposts.
  - split; [done|]. split; [done|]. eexists. by rewrite Ht.
Qed.

Lemma main_quiet repos w :
  Forall (λ repo, ∀ prs, pulls w !! repo = Some prs →
                         Forall (pr_linked w) prs) repos →
  quiet (for_range repos part_000.main_repo) w.
Proof.
  revert w. induction repos as [|repo repos IH]; intros w Hl; simpl;
    [apply quiet_ret|].
  apply Forall_cons in Hl as [Hrepo Hrepos].
  pose proof (main_repo_quiet repo w Hrepo) as Hq.
  apply quiet_bind; [done|]. intros _ _. apply IH.
  destruct Hq as (Hi & Hp & _).
  eapply Forall_impl; [exact Hrepos|]. intros r Hr prs Hprs.
  rewrite Hp in Hprs. eapply Forall_impl; [by apply Hr|]. intros pr.
  by apply pr_linked_issues.
Qed.

End rerun.

(** X8: once a run of [main] has returned, a second run over the same
    pull requests, from any world where the Jira server is as the first
    run left it, issues no creation request and leaves the issues as
    they are, however it ends. *)
Theorem main_rerun_creates_nothing (w w' : World) :
  (part_000.main w).1 = Returned tt →
  pulls w' = pulls w →
  issues w' = issues (part_000.main w).2 →
  posts (run_events part_000.main w') = []
  ∧ issues (part_000.main w').2 = issues w'.
Proof.
  unfold part_000.main. intros Hret Hp Hi.
  destruct (main_quiet part_000.repositories w') as (Hi' & _ & t & Ht & Hposts).
  { eapply Forall_impl; [by apply main_links|].
    intros repo (prs & Hprs & Hl) prs' Hprs'. rewrite Hp, Hprs in Hprs'.
    injection Hprs' as <-. eapply Forall_impl; [exact Hl|]. intros pr.
    by apply pr_linked_issues. }
  split; [|done]. by rewrite (run_events_eq _ _ _ Ht).
Qed.

Lemma main_rerun_creates_nothing_witness :
  let w := example_run_world in
  created (run_events part_000.main w) = [link_of example_pr "IR-123"]
  ∧ posts (run_events part_000.main (part_000.main w).2) = [].
Proof.
  intros w. split; [by vm_compute|].
  apply (main_rerun_creates_nothing w (part_000.main w).2);
    [by vm_compute|done..].
Defined.

(** ** The issues the calls are about *)

Section alphabet.

Context (P : Event → Prop).

Lemma emits_ret {A} (a : A) : emits P (ret a).
Proof.
  intros w. exists []. split; [by rewrite (right_id_L [] (++))|].
  by apply Forall_nil.
Qed.

Lemma emits_bind {A B} (m : M A) (f : A → M B) :
  emits P m → (∀ a, emits P (f a)) → emits P (bind m f).
Proof.
  intros Hm Hf.
  apply (satisfies_bind m f (λ t _, Forall P t) (λ t _, Forall P t)); try done.
  intros t1 a t2 o H1 H2. by apply Forall_app.
Qed.

Lemma emits_emit e : P e → emits P (emit e).
Proof. intros He w. exists [e]. split; [done|]. by repeat constructor. Qed.

Lemma emits_logs (m : M unit) es :
  (∀ w, m w = (Returned tt, log es w)) → Forall P es → emits P m.
Proof. intros Hm Hes w. exists es. by rewrite Hm. Qed.

(** A remote call whose error is passed to [klog.Fatal]. *)
Lemma emits_call {A B} req (serve : World → Result (A * World))
    (k : A → M B) :
  (∀ w a w', serve w = Ok (a, w') → trace w' = trace w) →
  (∀ res, P (Remote req res)) → (∀ err, P (Fatal err)) →
  (∀ a, emits P (k a)) →
  emits P (r ← remote_call req serve;
           match r with
           | Err err => klog_Fatal err
           | Ok a => k a
           end).
Proof.
  intros Hserve Hreq Hfatal Hk w. unfold bind, remote_call.
  pose proof (trace_take_fault w) as Hw1.
  destruct (take_fault w) as [[] w1]; simpl in *.
  - eexists [_; _]. split; [by rewrite <- (assoc_L (++)), Hw1|].
    by repeat constructor.
  - destruct (serve w1) as [[a w2]|e] eqn:Es; simpl.
    + destruct (Hk a (record (Remote req None) w2)) as (t & Ht & HQ).
      exists (Remote req None :: t). split.
      * rewrite Ht. simpl. rewrite (Hserve _ _ _ Es), Hw1.
        by rewrite <- (assoc_L (++)).
      * by constructor.
    + eexists [_; _]. split; [by rewrite <- (assoc_L (++)), Hw1|].
      by repeat constructor.
Qed.

Lemma emits_for_range {A} (l : list A) (body : A → M unit) :
  (∀ x, In x l → emits P (body x)) → emits P (for_range l body).
Proof.
  induction l as [|x l IH]; intros Hb; simpl; [apply emits_ret|].
  apply emits_bind; [apply Hb; by left|]. intros _. apply IH.
  intros y Hy. apply Hb. by right.
Qed.

End alphabet.

Lemma emits_impl {A} (P Q : Event → Prop) (m : M A) :
  (∀ e, P e → Q e) → emits P m → emits Q m.
Proof.
  intros HPQ Hm w. destruct (Hm w) as (t & Ht & HP). exists t.
  split; [done|]. by eapply Forall_impl.
Qed.

Lemma logs_any (P : Event → Prop) t :
  (∀ e, is_log e = true → P e) → Forall (λ e, is_log e = true) t → Forall P t.
Proof. intros HP Ht. by eapply Forall_impl. Qed.

(** The events of [linkPullRequestToIssue]: log statements, the fatal
    log, and the three calls about the issue of its key. *)
Lemma linkPullRequestToIssue_emits (P : Event → Prop) pr issueKey :
  (∀ e, is_log e = true → P e) →
  (∀ err, P (Fatal err)) →
  (∀ res, P (Remote (Issue_Get issueKey) res)) →
  (∀ res, P (Remote (Issue_GetRemoteLinks issueKey) res)) →
  (∀ res, P (Remote (POST ("rest/api/2/issue/" +:+ issueKey +:+ "/remotelink")
                       (link_of pr issueKey)) res)) →
  emits P (part_000.linkPullRequestToIssue pr issueKey).
Proof.
  intros Hlog Hfatal Hget Hlinks Hpost.
  rewrite linkPullRequestToIssue_parts.
  apply emits_bind; [by apply emits_emit, Hlog|]. intros _.
  unfold jiraClient_Issue_Get. apply emits_call; try done.
  { intros w a w' Hs. destruct (issues w !! issueKey); by simplify_eq. }
  intros issue. apply emits_bind.
  { eapply emits_logs; [apply status_checker_run|].
    apply logs_any; [done|apply status_checker_logs]. }
  intros _. unfold link_reconciler, jiraClient_Issue_GetRemoteLinks.
  apply emits_call; try done.
  { intros w a w' Hs. destruct (issues w !! issueKey); by simplify_eq. }
  intros links. apply emits_bind.
  { intros w. rewrite scan_links. destruct (links_have_url _ _).
    - eexists. split; [done|]. repeat constructor. by apply Hlog.
    - exists []. split; [by rewrite (right_id_L [] (++))|]. by constructor. }
  intros [|]; [apply emits_ret|].
  apply emits_bind; [by apply emits_emit, Hlog|]. intros _.
  unfold jiraClient_POST_remotelink. apply emits_call; try done.
  { intros w a w' Hs. destruct (issues w !! issueKey); by simplify_eq. }
  intros _. apply emits_ret.
Qed.

(** The calls of [linkPullRequestToIssue] are about the issue of its
    key. *)
Lemma linkPullRequestToIssue_calls pr issueKey :
  emits (call_about issueKey) (part_000.linkPullRequestToIssue pr issueKey).
Proof. apply linkPullRequestToIssue_emits; try done. by intros []. Qed.

(** The key read from a title is a key of the project. *)
Lemma keyRegexp_is_IR_key title k :
  part_000.keyRegexp_FindStringSubmatch title = Some k → is_IR_key k.
Proof.
  unfold part_000.keyRegexp_FindStringSubmatch. rewrite IR_alternatives.
  intros (pre & s & _ & Hm & _)%find_key_Some.
  apply marker_at_IR in Hm as (d & rest & Hd & -> & _). by exists d.
Qed.

(** X9: in a run of [main], every call to the Jira server is a call
    about an issue whose key has the form ["IR-<digits>"]: the fetch of
    the issue and of its links name such a key, and a creation request
    goes to the path ["rest/api/2/issue/IR-<digits>/remotelink"]. *)
Theorem main_calls_about_IR (w : World) :
  Forall call_about_IR (run_events part_000.main w).
Proof.
  assert (emits call_about_IR part_000.main) as H.
  { apply emits_for_range. intros repo _. unfold part_000.main_repo.
    apply emits_bind; [by apply emits_emit|]. intros _.
    unfold githubClient_PullRequests_List. apply emits_call; try done.
    { intros w0 a w' Hs. destruct (pulls w0 !! _); by simplify_eq. }
    intros prs. apply emits_for_range. intros pr _.
    rewrite main_pr_parts. apply emits_bind.
    { eapply emits_logs; [apply attention_classifier_run|].
      apply logs_any; [by intros []|apply attention_classifier_logs]. }
    intros _.
    destruct (part_000.keyRegexp_FindStringSubmatch _) as [k|] eqn:Hk;
      [|apply emits_ret].
    apply keyRegexp_is_IR_key in Hk.
    eapply emits_impl; [|apply linkPullRequestToIssue_calls].
    intros [| | |[] res]; try done; intros Hc; by exists k. }
  destruct (H w) as (t & Ht & HP). by rewrite (run_events_eq _ _ _ Ht).
Qed.

(** ** The earlier version *)

Section earlier_version.

Implicit Types w : World.
Implicit Types pr : github.PullRequest.

Lemma main_go_linkPullRequestToIssue_disciplined pr issueKey :
  satisfies (main_go.linkPullRequestToIssue pr issueKey) disciplined.
Proof.
  rewrite main_go_linkPullRequestToIssue_parts.
  apply disciplined_bind; [by apply disciplined_emit|]. intros _.
  apply link_reconciler_disciplined.
Qed.

Lemma main_go_main_disciplined : satisfies main_go.main disciplined.
Proof.
  apply disciplined_for_range. intros repo. unfold main_go.main_repo.
  apply disciplined_bind; [by apply disciplined_emit|]. intros _.
  unfold githubClient_PullRequests_List. apply disciplined_call.
  { intros w a w' Hs. destruct (pulls w !! _); by simplify_eq. }
  intros prs. apply disciplined_for_range. intros pr. unfold main_go.main_pr.
  destruct (main_go.keyRegexp_FindStringSubmatch _).
  - apply main_go_linkPullRequestToIssue_disciplined.
  - apply disciplined_ret.
Qed.

(** The events of the earlier version: no advisory diagnostic. *)
Lemma main_go_main_no_advisory :
  emits (λ e, is_advisory e = false) main_go.main.
Proof.
  apply emits_for_range. intros repo _. unfold main_go.main_repo.
  apply emits_bind; [by apply emits_emit|]. intros _.
  unfold githubClient_PullRequests_List. apply emits_call; try done.
  { intros w a w' Hs. destruct (pulls w !! _); by simplify_eq. }
  intros prs. apply emits_for_range. intros pr _. unfold main_go.main_pr.
  destruct (main_go.keyRegexp_FindStringSubmatch _) as [k|]; [|apply emits_ret].
  rewrite main_go_linkPullRequestToIssue_parts.
  apply emits_bind; [by apply emits_emit|]. intros _.
  intros w. apply link_reconciler_events.
Qed.

Lemma main_go_linkPullRequestToIssue_effect pr issueKey w :
  let L := main_go.linkPullRequestToIssue pr issueKey in
  let url := part_000.pullRequestLink pr in
  ∃ t, trace (L w).2 = trace w ++ t
    ∧ ((issues (L w).2 = issues w ∧ created t = []
        ∧ ((L w).1 = Returned tt →
             links_have_url (links_of w issueKey) url = true)
        ∧ (links_have_url (links_of w issueKey) url = true → posts t = []))
       ∨ (links_have_url (links_of w issueKey) url = false
          ∧ (L w).1 = Returned tt
          ∧ created t = [link_of pr issueKey]
          ∧ links_of (L w).2 issueKey
            = links_of w issueKey ++ [link_of pr issueKey])).
Proof.
  intros L url. unfold L. rewrite main_go_linkPullRequestToIssue_run.
  rewrite link_reconciler_run. unfold links_of.
  destruct w as [ps iss fs t]. simpl.
  destruct fs as [|[] [|[] fs]]; simpl.
  all: destruct (iss !! issueKey) as [r|] eqn:E; simpl.
  all: try (fold url; destruct (links_have_url (remotelinks r) url) eqn:Eu).
  all: eexists; (split;
         [unfold log, set_issues; simpl;
          rewrite <- ?(assoc_L (++)); simpl; reflexivity|]).
  all: unfold checking; simpl.
  all: try (left; by repeat split).
  all: right; repeat split; try done.
  all: by rewrite lookup_insert_eq.
Qed.

End earlier_version.

(** X10: the earlier version keeps the same error discipline: in a run
    of its [main], a remote call that fails is followed by the fatal log
    of its error and by nothing else, and the run exits; a run exits
    only in this way; and no advisory diagnostic is ever emitted. *)
Theorem main_go_remote_errors_fatal (w : World) :
  let o := (main_go.main w).1 in
  let t := run_events main_go.main w in
  (∀ t1 req err t2, t = t1 ++ Remote req (Some err) :: t2 →
     o = Exited ∧ t2 = [Fatal err])
  ∧ (o = Exited ↔ ∃ t1 req err, t = t1 ++ [Remote req (Some err); Fatal err])
  ∧ List.filter is_advisory t = [].
Proof.
  intros o t. destruct (main_go_main_disciplined w) as (t' & Ht & Hd).
  destruct (main_go_main_no_advisory w) as (t'' & Ht'' & Hadv).
  fold o in Hd. unfold t. rewrite (run_events_eq _ _ _ Ht).
  rewrite Ht in Ht''. apply (inj (app (trace w))) in Ht''. subst t''.
  clear t Ht.
  split; [|split].
  - intros t1 req err t2 E. destruct o as [[]|]; simpl in Hd.
    + by pose proof (clean_no_failure _ _ _ _ Hd E).
    + destruct Hd as (s & req0 & err0 & -> & Hs).
      destruct (failure_position _ _ _ _ _ _ Hs E eq_refl)
        as [(-> & [= -> ->] & ->)|(_ & [=] & _)].
      done.
  - destruct o as [[]|]; simpl in Hd.
    + split; [done|]. intros (t1 & req & err & E).
      by pose proof (clean_no_failure _ _ _ _ Hd E).
    + split; [|done]. intros _. destruct Hd as (s & req0 & err0 & -> & _).
      by exists s, req0, err0.
  - apply (filter_not_advisory is_advisory); done.
Qed.

(** X11: the earlier version of [linkPullRequestToIssue] is idempotent
    too: with a link of the URL of the pull request among the links of
    the issue it issues no creation request and leaves the issues as
    they are; a second invocation, from any world where the Jira server
    is as the first one left it, creates nothing once the first has
    returned, and the two together create at most one link. *)
Theorem main_go_link_idempotent (pr : github.PullRequest)
    (issueKey : string) (w : World) :
  let L := main_go.linkPullRequestToIssue pr issueKey in
  let url := main_go.pullRequestLink pr in
  (links_have_url (links_of w issueKey) url = true →
     posts (run_events L w) = [] ∧ issues (L w).2 = issues w)
  ∧ (∀ w', issues w' = issues (L w).2 →
       length (created (run_events L w) ++ created (run_events L w')) ≤ 1
       ∧ ((L w).1 = Returned tt →
            posts (run_events L w') = [] ∧ issues (L w').2 = issues w')).
Proof.
  intros L url.
  change url with (part_000.pullRequestLink pr). clear url.
  destruct (main_go_linkPullRequestToIssue_effect pr issueKey w)
    as (t1 & Ht1 & H1).
  fold L in Ht1, H1. rewrite (run_events_eq _ _ _ Ht1). split.
  - intros Hu. destruct H1 as [(Hi1 & Hc1 & Hr1 & Hp1)|(Hu1 & _)]; [|congruence].
    split; [by apply Hp1|done].
  - intros w' Hw'.
    destruct (main_go_linkPullRequestToIssue_effect pr issueKey w')
      as (t2 & Ht2 & H2).
    fold L in Ht2, H2. rewrite (run_events_eq _ _ _ Ht2).
    assert (links_of w' issueKey = links_of (L w).2 issueKey) as Hl
      by (unfold links_of; by rewrite Hw').
    rewrite Hl in H2.
    destruct H1 as [(Hi1 & Hc1 & Hr1 & Hp1)|(Hu1 & Hr1 & Hc1 & Hl1)].
    + rewrite Hc1. simpl.
      assert (links_of (L w).2 issueKey = links_of w issueKey) as Hl'
        by (unfold links_of; by rewrite Hi1).
      rewrite Hl' in H2.
      destruct H2 as [(Hi2 & Hc2 & Hr2 & Hp2)|(Hu2 & Hr2 & Hc2 & Hl2)].
      * rewrite Hc2. simpl. split; [lia|]. intros Hr. split; [|done].
        apply Hp2, Hr1, Hr.
      * rewrite Hc2. simpl. split; [lia|]. intros Hr.
        apply Hr1 in Hr. congruence.
    + assert (links_have_url (links_of (L w).2 issueKey)
                (part_000.pullRequestLink pr) = true) as Hu.
      { rewrite Hl1, links_have_url_app, link_of_has_url. apply orb_true_r. }
      destruct H2 as [(Hi2 & Hc2 & Hr2 & Hp2)|(Hu2 & _)]; [|congruence].
      rewrite Hc1, Hc2. simpl. split; [lia|]. intros _.
      by split; [apply Hp2|].
Qed.

Lemma main_go_link_idempotent_witness :
  let w := example_world "Code Review" [link_of example_pr "IR-123"] in
  let L := main_go.linkPullRequestToIssue example_pr "IR-123" in
  posts (run_events L w) = [] ∧ issues (L w).2 = issues w.
Proof.
  apply (proj1 (main_go_link_idempotent example_pr "IR-123"
                  (example_world "Code Review" [link_of example_pr "IR-123"]))).
  vm_compute. reflexivity.
Defined.

(** ** What linking depends on *)

Lemma link_reconciler_ext pr1 pr2 issueKey title :
  github.Number pr1 = github.Number pr2 →
  github.Base_Repo_FullName pr1 = github.Base_Repo_FullName pr2 →
  link_reconciler pr1 issueKey title = link_reconciler pr2 issueKey title.
Proof.
  destruct pr1, pr2. simpl. intros -> ->. reflexivity.
Qed.

(** X12: what [linkPullRequestToIssue] does to the Jira server depends
    on the title, the number and the repository of the pull request
    only: two pull requests that agree on these, whatever their state,
    merged flag, labels and author, give the same outcome, the same
    calls to the server with the same results, and the same issues. *)
Theorem linking_ignores_review_state (pr1 pr2 : github.PullRequest)
    (issueKey : string) (w : World) :
  github.Title pr1 = github.Title pr2 →
  github.Number pr1 = github.Number pr2 →
  github.Base_Repo_FullName pr1 = github.Base_Repo_FullName pr2 →
  let L1 := part_000.linkPullRequestToIssue pr1 issueKey in
  let L2 := part_000.linkPullRequestToIssue pr2 issueKey in
  (L1 w).1 = (L2 w).1
  ∧ issues (L1 w).2 = issues (L2 w).2
  ∧ faults (L1 w).2 = faults (L2 w).2
  ∧ List.filter is_jira_call (run_events L1 w)
    = List.filter is_jira_call (run_events L2 w).
Proof.
  intros Ht Hn Hf L1 L2. unfold L1, L2, run_events.
  rewrite !linkPullRequestToIssue_run. simpl. rewrite <- Ht.
  rewrite (link_reconciler_ext pr1 pr2) by done.
  pose proof (trace_take_fault w) as Htr.
  destruct (take_fault w) as [[] w1]; simpl in *.
  { rewrite !Htr, !drop_app_length. done. }
  destruct (issues w !! issueKey) as [r|].
  2: { simpl. rewrite !Htr, !drop_app_length. done. }
  destruct (link_reconciler_frame pr2 issueKey
              (residual_title (github.Title pr1) issueKey) w1)
    as (o & i & f & t & Hrun).
  rewrite !Hrun. simpl. rewrite !Htr, !drop_app_length. simpl.
  pose proof (status_checker_logs pr1 issueKey
                (residual_title (github.Title pr1) issueKey) (status r)) as H1.
  pose proof (status_checker_logs pr2 issueKey
                (residual_title (github.Title pr1) issueKey) (status r)) as H2.
  rewrite !List.filter_app.
  rewrite (filter_logs is_jira_call _ ltac:(by intros []) H1).
  rewrite (filter_logs is_jira_call _ ltac:(by intros []) H2).
  done.
Qed.

Lemma linking_ignores_review_state_witness :
  let pr := {| github.Title := "IR-123: Fix registry pruning";
               github.State := "closed"; github.Merged := false;
               github.Number := 42; github.User_Login := "someone";
               github.Base_Repo_FullName := "openshift/image-registry";
               github.Labels := [ {| github.Name := "do-not-merge/hold" |} ]
            |} in
  let w := example_world "Code Review" [] in
  issues (part_000.linkPullRequestToIssue pr "IR-123" w).2
  = issues (part_000.linkPullRequestToIssue example_pr "IR-123" w).2.
Proof.
  intros pr w.
  by apply (linking_ignores_review_state pr example_pr "IR-123" w).
Defined.

(** ** The order of the listing calls *)

Lemma main_pr_no_list pr :
  emits (λ e, is_list_call e = false) (part_000.main_pr pr).
Proof.
  rewrite main_pr_parts. apply emits_bind.
  { eapply emits_logs; [apply attention_classifier_run|].
    apply logs_any; [by intros []|apply attention_classifier_logs]. }
  intros _.
  destruct (part_000.keyRegexp_FindStringSubmatch _) as [k|];
    [|apply emits_ret].
  apply linkPullRequestToIssue_emits; try done. by intros [].
Qed.

Lemma filter_no_list t :
  Forall (λ e, is_list_call e = false) t → List.filter is_list_call t = [].
Proof.
  induction 1 as [|e t He _ IH]; [done|]. simpl. by rewrite He.
Qed.

Lemma main_repo_listing repo :
  satisfies (part_000.main_repo repo) (listing [repo]).
Proof.
  intros w. rewrite main_repo_run. simpl.
  pose proof (trace_take_fault w) as Ht.
  destruct (take_fault w) as [[] w1]; simpl in *.
  { eexists. split; [simpl; by rewrite Ht|].
    by exists [], repo, [], (Some ErrTransport). }
  destruct (pulls w !! repo) as [prs|].
  2: { eexists. split; [simpl; by rewrite Ht|].
       by exists [], repo, [], (Some ErrNotFound). }
  match goal with
  | |- context [for_range prs _ ?w0] =>
      destruct (emits_for_range _ prs part_000.main_pr
                  (λ pr _, main_pr_no_list pr) w0) as (t & Hrun & Hno)
  end.
  apply filter_no_list in Hno.
  exists ([Infof 2 "Analyzing github repository %s/%s..." [repo.1; repo.2];
           list_call repo None] ++ t).
  split; [rewrite Hrun; simpl; by rewrite Ht, <- (assoc_L (++))|].
  destruct (for_range prs _ _).1; simpl; rewrite Hno.
  - done.
  - by exists [], repo, [], None.
Qed.

Lemma for_range_main_repo_listing l :
  satisfies (for_range l part_000.main_repo) (listing l).
Proof.
  induction l as [|repo l IH]; simpl.
  { intros w. exists []. split; [by rewrite (right_id_L [] (++))|done]. }
  apply (satisfies_bind _ _ (listing [repo]) (listing l));
    [apply main_repo_listing|by intros _|..].
  - intros t1 [] t2 o H1 H2. simpl in H1.
    destruct o as [[]|]; simpl in *.
    + by rewrite List.filter_app, H1, H2.
    + destruct H2 as (l1 & r & l2 & res & -> & H2).
      exists (repo :: l1), r, l2, res. split; [done|].
      by rewrite List.filter_app, H1, H2.
  - intros t1 (l1 & r & l2 & res & El & H1). simpl.
    destruct l1 as [|? [|? ?]]; simplify_eq/=.
    by exists [], r, l, res.
Qed.

(** X13: a run of [main] that returns has listed the pull requests of
    every repository of [repositories] once, in their order, each call
    succeeding; a run that exits has done so up to some repository, whose
    listing call is the last one it made. *)
Theorem main_lists_repositories_in_order (w : World) :
  let lists := List.filter is_list_call (run_events part_000.main w) in
  match (part_000.main w).1 with
  | Returned _ =>
      lists = (λ repo, list_call repo None) <$> part_000.repositories
  | Exited =>
      ∃ l1 repo l2 res,
        part_000.repositories = l1 ++ repo :: l2
        ∧ lists = ((λ repo, list_call repo None) <$> l1) ++ [list_call repo res]
  end.
Proof.
  intros lists. unfold lists.
  destruct (for_range_main_repo_listing part_000.repositories w)
    as (t & Ht & Hl).
  by rewrite (run_events_eq part_000.main _ _ Ht).
Qed.

(** ** A missing link is created *)

Lemma linkPullRequestToIssue_creates (pr : github.PullRequest)
    (issueKey : string) (w : World) (r : IssueRecord) :
  issues w !! issueKey = Some r →
  links_have_url (remotelinks r) (part_000.pullRequestLink pr) = false →
  Forall (λ b, b = false) (take 3 (faults w)) →
  let L := part_000.linkPullRequestToIssue pr issueKey in
  (L w).1 = Returned tt
  ∧ issues (L w).2
    = <[issueKey := {| status := status r;
                       remotelinks := remotelinks r ++ [link_of pr issueKey] |}]>
        (issues w)
  ∧ List.filter is_jira_call (run_events L w)
    = [ Remote (Issue_Get issueKey) None;
        Remote (Issue_GetRemoteLinks issueKey) None;
        Remote (POST ("rest/api/2/issue/" +:+ issueKey +:+ "/remotelink")
                  (link_of pr issueKey)) None ].
Proof.
  intros Hr Hu Hf L. unfold L, run_events.
  rewrite linkPullRequestToIssue_run.
  pose proof (status_checker_logs pr issueKey
                (residual_title (github.Title pr) issueKey) (status r)) as Hsev.
  destruct w as [ps iss fs t]. simpl in *.
  destruct fs as [|b1 [|b2 [|b3 fs']]]; simpl in Hf;
    repeat (apply Forall_cons in Hf as [-> Hf]); simpl; rewrite Hr.
  all: set (sev := logged _) in *; clearbody sev.
  all: rewrite link_reconciler_run; simpl; rewrite Hr, Hu; simpl.
  all: rewrite <- ?(assoc_L (++)), drop_app_length; simpl.
  all: rewrite List.filter_app,
         (filter_logs is_jira_call sev ltac:(by intros []) Hsev).
  all: done.
Qed.

(** X14: when the server knows the issue, none of its links has the URL
    of the pull request and the transport does not fail,
    [linkPullRequestToIssue] returns after three calls, the fetch of the
    issue, the fetch of its links and one creation request, and the
    issue then holds its former links followed by the link of the pull
    request, with its status unchanged; the other issues are as they
    were. *)
Theorem missing_link_is_created (pr : github.PullRequest)
    (issueKey : string) (w : World) (r : IssueRecord) :
  issues w !! issueKey = Some r →
  links_have_url (remotelinks r) (part_000.pullRequestLink pr) = false →
  Forall (λ b, b = false) (take 3 (faults w)) →
  let L := part_000.linkPullRequestToIssue pr issueKey in
  (L w).1 = Returned tt
  ∧ issues (L w).2
    = <[issueKey := {| status := status r;
                       remotelinks := remotelinks r ++ [link_of pr issueKey] |}]>
        (issues w)
  ∧ List.filter is_jira_call (run_events L w)
    = [ Remote (Issue_Get issueKey) None;
        Remote (Issue_GetRemoteLinks issueKey) None;
        Remote (POST ("rest/api/2/issue/" +:+ issueKey +:+ "/remotelink")
                  (link_of pr issueKey)) None ].
Proof. apply linkPullRequestToIssue_creates. Qed.


Lemma missing_link_is_created_witness :
  let w := example_world "Code Review" [] in
  let L := part_000.linkPullRequestToIssue example_pr "IR-123" in
  (L w).1 = Returned tt
  ∧ links_of (L w).2 "IR-123" = [link_of example_pr "IR-123"].
Proof.
  intros w L.
  destruct (missing_link_is_created example_pr "IR-123" w
              {| status := "Code Review"; remotelinks := [] |})
    as (Hret & Hi & _); [done|done|by constructor|].
  split; [exact Hret|]. unfold links_of. fold L in Hi. rewrite Hi.
  by rewrite lookup_insert_eq.
Defined.

(** X15: the links of other pull requests do not stand in the way: when
    every link of the issue has the URL of a pull request of another
    repository or with another number, and the transport does not fail,
    [linkPullRequestToIssue] returns having added the link of the pull
    request after them. *)
Theorem other_pull_requests_do_not_block (pr : github.PullRequest)
    (issueKey : string) (w : World) (r : IssueRecord) :
  issues w !! issueKey = Some r →
  Forall (λ link, ∃ pr',
            jira.URL (jira.Object link) = part_000.pullRequestLink pr'
            ∧ (github.Base_Repo_FullName pr' ≠ github.Base_Repo_FullName pr
               ∨ github.Number pr' ≠ github.Number pr))
    (remotelinks r) →
  Forall (λ b, b = false) (take 3 (faults w)) →
  let L := part_000.linkPullRequestToIssue pr issueKey in
  (L w).1 = Returned tt
  ∧ links_of (L w).2 issueKey = remotelinks r ++ [link_of pr issueKey].
Proof.
  intros Hr Hothers Hf L.
  assert (links_have_url (remotelinks r) (part_000.pullRequestLink pr) = false)
    as Hu.
  { unfold links_have_url. induction Hothers as [|l ls (pr' & Hl & Hne) _ IH];
      [done|]. simpl. rewrite IH, orb_false_r.
    destruct (String.eqb_spec (jira.URL (jira.Object l))
                (part_000.pullRequestLink pr)) as [E|]; [|done].
    rewrite Hl in E. apply pullRequestLink_eq in E as [? ?].
    by destruct Hne. }
  destruct (linkPullRequestToIssue_creates pr issueKey w r Hr Hu Hf)
    as (Hret & Hi & _).
  split; [done|]. unfold links_of. fold L in Hi. rewrite Hi.
  by rewrite lookup_insert_eq.
Qed.

Lemma other_pull_requests_do_not_block_witness :
  let other := {| github.Title := "IR-123: Another change";
                  github.State := "closed"; github.Merged := true;
                  github.Number := 41; github.User_Login := "dmage";
                  github.Base_Repo_FullName := "openshift/image-registry";
                  github.Labels := [] |} in
  let w := example_world "Code Review" [link_of other "IR-123"] in
  links_of (part_000.linkPullRequestToIssue example_pr "IR-123" w).2 "IR-123"
  = [link_of other "IR-123"; link_of example_pr "IR-123"].
Proof.
  intros other w.
  apply (other_pull_requests_do_not_block example_pr "IR-123" w
           {| status := "Code Review";
              remotelinks := [link_of other "IR-123"] |}).
  - done.
  - repeat constructor. exists other. split; [done|]. by right.
  - by constructor.
Defined.
